(** * Image inpainting by Gauss-Seidel / SOR relaxation (src/App.tsx)

    A shallow embedding of the numerical core of [src/App.tsx]: the tensor
    data model, [makeDamagedView], [randomKnownMask], [inpaintGaussSeidel],
    [rmseOnMissing] and the mask part of [handleApplyDamage], followed by the
    properties of that code.

    Numbers are JavaScript numbers, that is IEEE-754 binary64 values; they are
    modelled with the executable specification [SpecFloat] of the Standard
    Library at precision 53.  A [Float32Array] holds binary32 values: a store
    rounds to precision 24 ([Math.fround]), a load is exact.

    Dimensions, indices and counters are integers that a JS number holds
    exactly (below 2^53); they are naturals here, and [maxIter] and the
    iteration counter are integers. *)

From Stdlib Require Import ZArith List Bool Lia.
From Stdlib Require Import Floats.SpecFloat.
From stdpp Require Import base list.

Import ListNotations.
Open Scope nat_scope.

(* ------------------------------------------------------------------ *)
(** ** JavaScript numbers *)
(* ------------------------------------------------------------------ *)

Module Num.

(** A JS number.  [SpecFloat] has one NaN, like JS. *)
Definition num : Type := spec_float.

Definition zero : num := S754_zero false.
Definition nan : num := S754_nan.

Definition fadd : num -> num -> num := SFadd 53 1024.
Definition fsub : num -> num -> num := SFsub 53 1024.
Definition fmul : num -> num -> num := SFmul 53 1024.
Definition fdiv : num -> num -> num := SFdiv 53 1024.
Definition fsqrt : num -> num := SFsqrt 53 1024.
Definition fabs : num -> num := SFabs.

(** [a < b] and [a > b] on numbers; both are false on NaN. *)
Definition flt : num -> num -> bool := SFltb.
Definition fgt (a b : num) : bool := SFltb b a.

(** The number denoted by an integer literal or an integer counter. *)
Definition of_Z (z : Z) : num := binary_normalize 53 1024 z 0 false.
Definition of_nat (n : nat) : num := of_Z (Z.of_nat n).

(** The dyadic literal [m * 2^e]. *)
Definition dyadic (m e : Z) : num := binary_normalize 53 1024 m e false.

(** [Math.fround]: round to the nearest binary32 value, ties to even, and
    read the outcome back as a number (exact). *)
Definition to_single (x : num) : spec_float :=
  match x with
  | S754_finite s m e => binary_normalize 24 128 (cond_Zopp s (Zpos m)) e s
  | _ => x
  end.

Definition of_single (x : spec_float) : num :=
  match x with
  | S754_finite s m e => binary_normalize 53 1024 (cond_Zopp s (Zpos m)) e s
  | _ => x
  end.

Definition fround (x : num) : num := of_single (to_single x).

(** The values a [Float32Array] can hold. *)
Definition is_f32 (x : num) : Prop := fround x = x.

End Num.
Import Num.

(* ------------------------------------------------------------------ *)
(** ** Typed arrays and the data model *)
(* ------------------------------------------------------------------ *)

(** A [Float32Array] is the list of its elements.  A read out of range yields
    [undefined], which every use in this program turns into NaN (arithmetic, or
    a store into another [Float32Array]); a write out of range is ignored,
    which is what stdpp's list insert does. *)
Abbreviation Float32Array := (list num).

Definition getF (a : Float32Array) (i : nat) : num := default nan (a !! i).

Definition setF (a : Float32Array) (i : nat) (v : num) : Float32Array :=
  <[i := fround v]> a.

(** A [Uint8Array] is the list of its elements; [a[i] === k] is false out of
    range, where the read is [undefined]. *)
Abbreviation Uint8Array := (list nat).

Definition is_at (a : Uint8Array) (i : nat) (k : nat) : bool :=
  bool_decide (a !! i = Some k).

(** [interface Tensor] *)
Record Tensor : Type := mkTensor {
  H : nat;
  W : nat;
  C : nat;
  data : Float32Array
}.

(** [interface InpaintResult] *)
Record InpaintResult : Type := mkInpaintResult {
  reconstructed : Tensor;
  residuals : list num;
  rmse : num;
  iterations : Z
}.

(** [for (let i = 0; i < n; i++) body]: the body run at 0, 1, ..., n-1 on the
    loop-carried state. *)
Definition for_range {S : Type} (n : nat) (body : nat -> S -> S) (s : S) : S :=
  fold_left (fun acc i => body i acc) (seq 0 n) s.

(* ------------------------------------------------------------------ *)
(** ** makeDamagedView and randomKnownMask *)
(* ------------------------------------------------------------------ *)

Definition makeDamagedView (original : Tensor) (known : Uint8Array) : Tensor :=
  {| H := H original;
     W := W original;
     C := C original;
     data :=
       for_range (H original * W original)
         (fun i d =>
            if is_at known i 0
            then setF (setF (setF d (i * 3 + 0) zero) (i * 3 + 1) zero) (i * 3 + 2) zero
            else d)
         (data original) |}.

(** [Math.random] is an input of the model: [rand i] is the i-th draw. *)
Definition randomKnownMask (rand : nat -> num) (Wd Hd : nat) (damagePercent : num)
  : Uint8Array :=
  map (fun i => if fgt (rand i) (fdiv damagePercent (of_Z 100)) then 1 else 0)
      (seq 0 (Wd * Hd)).

(* ------------------------------------------------------------------ *)
(** ** rmseOnMissing *)
(* ------------------------------------------------------------------ *)

(** The inner loop over the channels of pixel [i]. *)
Definition rmse_pixel (original reconstructed : Tensor) (i : nat) (sumSqError : num)
  : num :=
  for_range (C original)
    (fun c s =>
       let diff := fsub (getF (data original) (i * C original + c))
                        (getF (data reconstructed) (i * C original + c)) in
       fadd s (fmul diff diff))
    sumSqError.

(** The loop over the pixels; the state is [(sumSqError, count)].  [count] is
    an integer counter (exact in a JS number below 2^53). *)
Definition rmse_loop (original reconstructed : Tensor) (known : Uint8Array)
  : num * nat :=
  for_range (H original * W original)
    (fun i '(sumSqError, count) =>
       if is_at known i 0
       then (rmse_pixel original reconstructed i sumSqError, count + C original)
       else (sumSqError, count))
    (zero, 0).

Definition rmseOnMissing (original reconstructed : Tensor) (known : Uint8Array) : num :=
  let '(sumSqError, count) := rmse_loop original reconstructed known in
  if 0 <? count then fsqrt (fdiv sumSqError (of_nat count)) else zero.

(* ------------------------------------------------------------------ *)
(** ** inpaintGaussSeidel *)
(* ------------------------------------------------------------------ *)

(** [const omega = 1.25] *)
Definition omega : num := dyadic 5 (-2).

(** The state carried by one sweep: the working buffer and the two change
    accumulators. *)
Record Sweep : Type := mkSweep {
  U : Float32Array;
  totalChange : num;
  changeCount : nat
}.

(** [const neighbors = [...]]: up, down, left, right.  On naturals [y - 1] is
    0 at [y = 0], which is [Math.max(0, y - 1)]. *)
Definition neighbors (Hd Wd y x : nat) : list (nat * nat) :=
  [ (Nat.max 0 (y - 1), x);
    (Nat.min (Hd - 1) (y + 1), x);
    (y, Nat.max 0 (x - 1));
    (y, Nat.min (Wd - 1) (x + 1)) ].

(** Known pixel, channel [c]: [U[idx*C+c] = damaged.data[idx*C+c]]. *)
Definition known_channel (damaged : Tensor) (idx c : nat) (st : Sweep) : Sweep :=
  {| U := setF (U st) (idx * C damaged + c) (getF (data damaged) (idx * C damaged + c));
     totalChange := totalChange st;
     changeCount := changeCount st |}.

(** Unknown pixel, channel [c]. *)
Definition unknown_channel (damaged : Tensor) (nbrs : list (nat * nat)) (idx c : nat)
    (st : Sweep) : Sweep :=
  let sum :=
    fold_left
      (fun s '(ny, nx) => fadd s (getF (U st) ((ny * W damaged + nx) * C damaged + c)))
      nbrs zero in
  let oldVal := getF (U st) (idx * C damaged + c) in
  let newVal := fdiv sum (of_Z 4) in
  let U' := setF (U st) (idx * C damaged + c)
                 (fadd oldVal (fmul omega (fsub newVal oldVal))) in
  {| U := U';
     totalChange :=
       fadd (totalChange st) (fabs (fsub (getF U' (idx * C damaged + c)) oldVal));
     changeCount := changeCount st + 1 |}.

(** The body of the two pixel loops at [(y, x)]. *)
Definition pixel_step (damaged : Tensor) (known : Uint8Array) (y x : nat) (st : Sweep)
  : Sweep :=
  let idx := y * W damaged + x in
  if is_at known idx 1
  then for_range (C damaged) (known_channel damaged idx) st
  else for_range (C damaged)
         (unknown_channel damaged (neighbors (H damaged) (W damaged) y x) idx) st.

(** One pass of the [for y] / [for x] loops, from fresh accumulators. *)
Definition sweep (damaged : Tensor) (known : Uint8Array) (U0 : Float32Array) : Sweep :=
  for_range (H damaged)
    (fun y st => for_range (W damaged) (fun x st' => pixel_step damaged known y x st') st)
    {| U := U0; totalChange := zero; changeCount := 0 |}.

(** [const avgChange = changeCount > 0 ? totalChange / changeCount : 0] *)
Definition avgChange (st : Sweep) : num :=
  if 0 <? changeCount st then fdiv (totalChange st) (of_nat (changeCount st)) else zero.

(** The loop [for (iter = 0; iter < maxIter; iter++)], by recursion on the
    number [maxIter - iter] of iterations the loop test still allows.  The
    result is the final [(iter, U, residuals)]; after a [break] the counter has
    not been incremented. *)
Fixpoint iterate (damaged : Tensor) (known : Uint8Array) (tol : num)
    (remaining : nat) (iter : Z) (U0 : Float32Array) (res : list num)
  : Z * Float32Array * list num :=
  match remaining with
  | O => (iter, U0, res)
  | S remaining' =>
      let st := sweep damaged known U0 in
      let res' := res ++ [avgChange st] in
      if flt (avgChange st) tol
      then (iter, U st, res')
      else iterate damaged known tol remaining' (iter + 1)%Z (U st) res'
  end.

Definition inpaintGaussSeidel (damaged : Tensor) (known : Uint8Array)
    (lambda beta : num) (maxIter : Z) (tol : num) : InpaintResult :=
  let '(iter, Uf, res) :=
    iterate damaged known tol (Z.to_nat maxIter) 0%Z (data damaged) [] in
  let reconstructed :=
    {| H := H damaged; W := W damaged; C := C damaged; data := Uf |} in
  {| reconstructed := reconstructed;
     residuals := res;
     rmse := rmseOnMissing damaged reconstructed known;
     iterations := (iter + 1)%Z |}.

(* ------------------------------------------------------------------ *)
(** ** The component state and its two handlers *)
(* ------------------------------------------------------------------ *)

Module App.

(** The [useState] cells of [App] that the handlers read or write. *)
Record State : Type := mkState {
  originalTensor : option Tensor;
  manualMask : option Uint8Array;
  knownMask : option Uint8Array;
  damagedTensor : option Tensor;
  reconstructedTensor : option Tensor;
  residuals : list num;
  rmse : num;
  iterations : Z;
  useManualMask : bool;
  damagePercent : num;
  lambda : num;
  beta : num;
  maxIter : Z;
  tol : num
}.

(** What a handler shows to the user besides the new state. *)
Inductive notice : Type :=
| NoPaintedPixels.   (* alert('No hay pixeles pintados en la mascara ...') *)

(** [manualMask.reduce((sum, val) => sum + val, 0)] *)
Definition paintedCount (mask : Uint8Array) : nat :=
  fold_left (fun sum val => sum + val) mask 0.

(** [known[i] = manualMask[i] === 1 ? 0 : 1] for every [i]. *)
Definition invert (mask : Uint8Array) : Uint8Array :=
  map (fun v => if v =? 1 then 0 else 1) mask.

(** The four setters at the end of [handleApplyDamage]. *)
Definition apply_known (st : State) (t : Tensor) (known : Uint8Array) : State :=
  {| originalTensor := originalTensor st;
     manualMask := manualMask st;
     knownMask := Some known;
     damagedTensor := Some (makeDamagedView t known);
     reconstructedTensor := None;
     residuals := [];
     rmse := rmse st;
     iterations := iterations st;
     useManualMask := useManualMask st;
     damagePercent := damagePercent st;
     lambda := lambda st;
     beta := beta st;
     maxIter := maxIter st;
     tol := tol st |}.

(** [handleApplyDamage]: the new state and the alert raised, if any.  The
    [console.log] calls are not modelled. *)
Definition handleApplyDamage (rand : nat -> num) (st : State) : State * option notice :=
  match originalTensor st with
  | None => (st, None)
  | Some t =>
      match useManualMask st, manualMask st with
      | true, Some mask =>
          if paintedCount mask =? 0
          then (st, Some NoPaintedPixels)
          else (apply_known st t (invert mask), None)
      | _, _ =>
          (apply_known st t (randomKnownMask rand (W t) (H t) (damagePercent st)), None)
      end
  end.

(** [handleReconstruct] *)
Definition handleReconstruct (st : State) : State :=
  match damagedTensor st, knownMask st with
  | Some damaged, Some known =>
      let '(mkInpaintResult result_reconstructed result_residuals result_rmse
                            result_iterations) :=
        inpaintGaussSeidel damaged known (lambda st) (beta st) (maxIter st) (tol st) in
      {| originalTensor := originalTensor st;
         manualMask := manualMask st;
         knownMask := knownMask st;
         damagedTensor := damagedTensor st;
         reconstructedTensor := Some result_reconstructed;
         residuals := result_residuals;
         rmse := result_rmse;
         iterations := result_iterations;
         useManualMask := useManualMask st;
         damagePercent := damagePercent st;
         lambda := lambda st;
         beta := beta st;
         maxIter := maxIter st;
         tol := tol st |}
  | _, _ => st
  end.

End App.

(* ------------------------------------------------------------------ *)
(** ** The behaviour the specification describes, in its own words *)
(* ------------------------------------------------------------------ *)

(** The buffer one sweep leaves, and the buffer after [k] sweeps from [U0]. *)
Definition sweep_step (damaged : Tensor) (known : Uint8Array) (V : Float32Array)
  : Float32Array :=
  U (sweep damaged known V).

Definition buffer_after (damaged : Tensor) (known : Uint8Array) (U0 : Float32Array)
    (k : nat) : Float32Array :=
  Nat.iter k (sweep_step damaged known) U0.

(** The residual of sweep number [k + 1] from [U0]. *)
Definition residual_after (damaged : Tensor) (known : Uint8Array) (U0 : Float32Array)
    (k : nat) : num :=
  avgChange (sweep damaged known (buffer_after damaged known U0 k)).

(** The buffer after [k] sweeps of the engine, which starts from the damaged
    samples. *)
Definition U_after (damaged : Tensor) (known : Uint8Array) (k : nat) : Float32Array :=
  buffer_after damaged known (data damaged) k.

(** Buffer [V] holds the damaged value at every channel of every known pixel. *)
Definition known_fixed (damaged : Tensor) (known : Uint8Array) (V : Float32Array) : Prop :=
  forall i c, known !! i = Some 1 -> c < C damaged ->
              V !! (i * C damaged + c) = data damaged !! (i * C damaged + c).

(** The number of sweeps a call performed: every sweep pushes one residual. *)
Definition sweeps_done (r : InpaintResult) : nat := length (residuals r).

(** A coordinate clamped to the nearest valid one. *)
Definition clamp (lo hi v : Z) : Z := Z.max lo (Z.min hi v).

(** The sample of buffer [V] at row [y], column [x], channel [c] of a raster
    with the dimensions of [t]: index [(y * W + x) * C + c]. *)
Definition sample (t : Tensor) (V : Float32Array) (y x : Z) (c : nat) : num :=
  getF V (Z.to_nat ((y * Z.of_nat (W t) + x) * Z.of_nat (C t) + Z.of_nat c)).

(** The mean of [V] at the four axis-aligned neighbours of [(y, x)], each
    coordinate clamped to [0, H-1] or [0, W-1]; the sum is taken from 0 in the
    order up, down, left, right. *)
Definition neighbour_mean (t : Tensor) (V : Float32Array) (y x c : nat) : num :=
  let yz := Z.of_nat y in
  let xz := Z.of_nat x in
  let up := sample t V (clamp 0 (Z.of_nat (H t) - 1) (yz - 1)) xz c in
  let down := sample t V (clamp 0 (Z.of_nat (H t) - 1) (yz + 1)) xz c in
  let left := sample t V yz (clamp 0 (Z.of_nat (W t) - 1) (xz - 1)) c in
  let right := sample t V yz (clamp 0 (Z.of_nat (W t) - 1) (xz + 1)) c in
  fdiv (fadd (fadd (fadd (fadd zero up) down) left) right) (of_Z 4).

(** Over-relaxation: [old + 1.25 * (mean - old)]. *)
Definition sor_value (t : Tensor) (V : Float32Array) (y x c : nat) : num :=
  let old := sample t V (Z.of_nat y) (Z.of_nat x) c in
  fadd old (fmul (dyadic 5 (-2)) (fsub (neighbour_mean t V y x c) old)).

(** The in-place update of one channel of an unknown pixel. *)
Definition relax_channel (t : Tensor) (y x c : nat) (V : Float32Array) : Float32Array :=
  setF V ((y * W t + x) * C t + c) (sor_value t V y x c).

(** The damaged value reimposed on one channel of a known pixel. *)
Definition reimpose_channel (t : Tensor) (y x c : nat) (V : Float32Array) : Float32Array :=
  setF V ((y * W t + x) * C t + c) (getF (data t) ((y * W t + x) * C t + c)).

(** The pixels in row-major order. *)
Definition row_major (Hd Wd : nat) : list (nat * nat) :=
  flat_map (fun y => map (fun x => (y, x)) (seq 0 Wd)) (seq 0 Hd).

(** The treatment of one pixel: a known pixel gets its damaged values back, an
    unknown pixel is relaxed, channel after channel. *)
Definition gs_pixel (t : Tensor) (known : Uint8Array) (V : Float32Array) (yx : nat * nat)
  : Float32Array :=
  let y := fst yx in
  let x := snd yx in
  if is_at known (y * W t + x) 1
  then fold_left (fun V' c => reimpose_channel t y x c V') (seq 0 (C t)) V
  else fold_left (fun V' c => relax_channel t y x c V') (seq 0 (C t)) V.

(** One Gauss-Seidel sweep: the pixels in row-major order, each on the buffer
    the previous ones left. *)
Definition gauss_seidel_sweep (t : Tensor) (known : Uint8Array) (V : Float32Array)
  : Float32Array :=
  fold_left (gs_pixel t known) (row_major (H t) (W t)) V.

(** The (pixel, channel) pairs of the unknown pixels, in buffer order. *)
Definition unknown_terms (t : Tensor) (known : Uint8Array) : list (nat * nat) :=
  flat_map (fun i => if is_at known i 0 then map (fun c => (i, c)) (seq 0 (C t)) else [])
           (seq 0 (H t * W t)).

(** The sum of a list of numbers, added left to right from 0. *)
Definition fsum (l : list num) : num := fold_left fadd l zero.

(** The squared difference of two tensors at a (pixel, channel) pair. *)
Definition sq_diff (original reconstructed : Tensor) (ic : nat * nat) : num :=
  let i := fst ic in
  let c := snd ic in
  let diff := fsub (getF (data original) (i * C original + c))
                   (getF (data reconstructed) (i * C original + c)) in
  fmul diff diff.

(** Root of the mean of the squared differences over the unknown terms; 0 when
    there is none. *)
Definition rmse_spec (original reconstructed : Tensor) (known : Uint8Array) : num :=
  let terms := unknown_terms original known in
  match terms with
  | [] => zero
  | _ :: _ =>
      fsqrt (fdiv (fsum (map (sq_diff original reconstructed) terms))
                  (of_nat (length terms)))
  end.

(** Root of the mean of the squared samples of [t] over the unknown terms. *)
Definition rms_unknown (t : Tensor) (known : Uint8Array) : num :=
  let terms := unknown_terms t known in
  match terms with
  | [] => zero
  | _ :: _ =>
      fsqrt (fdiv (fsum (map (fun ic => let v := getF (data t) (fst ic * C t + snd ic) in
                                        fmul v v) terms))
                  (of_nat (length terms)))
  end.

(** Tensor [t] holds 0 at every channel of every unknown pixel (where the
    buffer has the sample at all). *)
Definition zeroed_unknown (t : Tensor) (known : Uint8Array) : Prop :=
  forall i c v, i < H t * W t -> known !! i = Some 0 -> c < C t ->
                data t !! (i * C t + c) = Some v -> v = zero.

(** The known mask of [t] is all-ones: one flag per pixel, each 1. *)
Definition all_ones (t : Tensor) (known : Uint8Array) : Prop :=
  length known = H t * W t /\ Forall (fun v => v = 1) known.

(** A paint mask holds 0 (untouched) or 1 (painted). *)
Definition binary_mask (mask : Uint8Array) : Prop :=
  Forall (fun v => v = 0 \/ v = 1) mask.

(* ------------------------------------------------------------------ *)
(** ** Concrete inputs used by the examples *)
(* ------------------------------------------------------------------ *)

Definition one : num := of_Z 1.

(** [0.0001], the default tolerance of the application. *)
Definition tol_default : num := fdiv (of_Z 1) (of_Z 10000).

(** A white 1 x 1 source image and a 1 x 2 one. *)
Definition white_1x1 : Tensor := mkTensor 1 1 3 [one; one; one].
Definition white_1x2 : Tensor := mkTensor 1 2 3 [one; one; one; one; one; one].

(** The 1 x 2 image with its right pixel damaged. *)
Definition half_damaged : Tensor := makeDamagedView white_1x2 [1; 0].

(** A white 1 x 8 strip of which only the left pixel is known. *)
Definition white_strip : Tensor := mkTensor 1 8 3 (repeat one 24).
Definition strip_known : list nat := [1; 0; 0; 0; 0; 0; 0; 0].

(* ------------------------------------------------------------------ *)
(** ** Image conversion *)
(* ------------------------------------------------------------------ *)

Module JSMath.

(** [a <= b] on numbers; false on NaN. *)
Definition fle : num -> num -> bool := SFleb.

Definition is_nan (x : num) : bool :=
  match x with S754_nan => true | _ => false end.

(** [Math.max(a, b)]: NaN when an argument is NaN; +0 is larger than -0. *)
Definition max (a b : num) : num :=
  if is_nan a || is_nan b then nan
  else if flt a b then b
  else if flt b a then a
  else match a, b with
       | S754_zero sa, S754_zero sb => S754_zero (sa && sb)
       | _, _ => a
       end.

(** [Math.min(a, b)]: NaN when an argument is NaN; -0 is smaller than +0. *)
Definition min (a b : num) : num :=
  if is_nan a || is_nan b then nan
  else if flt a b then a
  else if flt b a then b
  else match a, b with
       | S754_zero sa, S754_zero sb => S754_zero (sa || sb)
       | _, _ => a
       end.

(** [Math.round(x)]: the nearest integer, a tie going towards +infinity; an
    integral [x], a zero, an infinity and NaN are returned as they are, and a
    result 0 keeps the sign of [x].  For [x = v / 2^k] it is
    [floor ((2 v + 2^k) / 2^(k+1))]. *)
Definition round (x : num) : num :=
  match x with
  | S754_finite s m e =>
      if (0 <=? e)%Z then x
      else
        let d := (2 ^ (- e))%Z in
        let n := ((2 * cond_Zopp s (Zpos m) + d) / (2 * d))%Z in
        if (n =? 0)%Z then S754_zero s else of_Z n
  | _ => x
  end.

(** The conversion of a store into a [Uint8ClampedArray]: NaN gives 0, the
    value is clamped to [0, 255] and rounded to the nearest integer, a tie
    going to the even one. *)
Definition to_uint8_clamp (x : num) : nat :=
  match x with
  | S754_nan => 0
  | S754_zero _ => 0
  | S754_infinity s => if s then 0 else 255
  | S754_finite true _ _ => 0
  | S754_finite false m e =>
      let n :=
        if (0 <=? e)%Z then (Zpos m * 2 ^ e)%Z
        else
          let d := (2 ^ (- e))%Z in
          let q := (Zpos m / d)%Z in
          let r := (Zpos m mod d)%Z in
          if (2 * r <? d)%Z then q
          else if (d <? 2 * r)%Z then (q + 1)%Z
          else if Z.even q then q else (q + 1)%Z in
      Z.to_nat (Z.min 255 n)
  end.

(** Structural equality of numbers, for checks by computation. *)
Definition num_eqb (x y : num) : bool :=
  match x, y with
  | S754_zero a, S754_zero b => Bool.eqb a b
  | S754_infinity a, S754_infinity b => Bool.eqb a b
  | S754_nan, S754_nan => true
  | S754_finite a m e, S754_finite b m' e' =>
      Bool.eqb a b && Pos.eqb m m' && Z.eqb e e'
  | _, _ => false
  end.

End JSMath.

(** A [Uint8ClampedArray] (and the [Uint8Array] of a mask) is the list of its
    bytes.  A read out of range is [undefined], NaN in arithmetic; a write out
    of range is ignored. *)
Definition getB (a : list nat) (i : nat) : num :=
  match a !! i with
  | Some b => of_nat b
  | None => nan
  end.

Definition setB (a : list nat) (i : nat) (v : num) : list nat :=
  <[i := JSMath.to_uint8_clamp v]> a.

(** The DOM's [ImageData]: RGBA bytes, row-major. *)
Module ImageData.
Record t : Type := mk {
  width : nat;
  height : nat;
  data : list nat
}.
End ImageData.

Definition rgbaToTensor (imageData : ImageData.t) : Tensor :=
  let Wd := ImageData.width imageData in
  let Hd := ImageData.height imageData in
  let rgba := ImageData.data imageData in
  {| H := Hd;
     W := Wd;
     C := 3;
     data :=
       for_range (Hd * Wd)
         (fun i d =>
            setF (setF (setF d
              (i * 3 + 0) (fdiv (getB rgba (i * 4 + 0)) (of_Z 255)))
              (i * 3 + 1) (fdiv (getB rgba (i * 4 + 1)) (of_Z 255)))
              (i * 3 + 2) (fdiv (getB rgba (i * 4 + 2)) (of_Z 255)))
         (replicate (Hd * Wd * 3) zero) |}.

(** [Math.round(Math.min(255, Math.max(0, v * 255)))] *)
Definition to_level (v : num) : num :=
  JSMath.round (JSMath.min (of_Z 255) (JSMath.max zero (fmul v (of_Z 255)))).

(** [new ImageData(W, H)] throws when a dimension is 0: the result is [None]
    then. *)
Definition tensorToImageData (tensor : Tensor) : option ImageData.t :=
  if (W tensor =? 0) || (H tensor =? 0) then None
  else
    Some
      {| ImageData.width := W tensor;
         ImageData.height := H tensor;
         ImageData.data :=
           for_range (H tensor * W tensor)
             (fun i d =>
                setB (setB (setB (setB d
                  (i * 4 + 0) (to_level (getF (data tensor) (i * 3 + 0))))
                  (i * 4 + 1) (to_level (getF (data tensor) (i * 3 + 1))))
                  (i * 4 + 2) (to_level (getF (data tensor) (i * 3 + 2))))
                  (i * 4 + 3) (of_Z 255))
             (replicate (4 * W tensor * H tensor) 0) |}.

(** An image as the canvas delivers it: four bytes per pixel, each at most
    255, and no empty dimension. *)
Definition well_formed_image (img : ImageData.t) : Prop :=
  0 < ImageData.width img /\ 0 < ImageData.height img /\
  length (ImageData.data img) = 4 * ImageData.width img * ImageData.height img /\
  Forall (fun b => b <= 255) (ImageData.data img).

(** A 1 x 1 image: one translucent magenta pixel. *)
Definition magenta_pixel : ImageData.t := ImageData.mk 1 1 [255; 0; 255; 7].

(** The bytes of an image with every alpha byte set to 255. *)
Definition opaque (rgba : list nat) : list nat :=
  imap (fun j b => if j mod 4 =? 3 then 255 else b) rgba.

(** A sample between 0 and 1 (so not NaN). *)
Definition unit_sample (v : num) : Prop :=
  JSMath.fle zero v = true /\ JSMath.fle v one = true.

(** The check of one byte [b]: normalising it gives a binary32 value between
    0 and 1 that converts back to [b]. *)
Definition byte_round_trips (b : nat) : bool :=
  let v := fround (fdiv (of_nat b) (of_Z 255)) in
  JSMath.num_eqb (fround v) v
  && JSMath.fle zero v && JSMath.fle v one
  && (JSMath.to_uint8_clamp (to_level v) =? b).

(* ------------------------------------------------------------------ *)
(** ** Mask painting and the remaining handlers *)
(* ------------------------------------------------------------------ *)

(** [for (let v = lo; v <= hi; v++) body] on integers. *)
Definition for_z {S : Type} (lo hi : Z) (body : Z -> S -> S) (s : S) : S :=
  fold_left (fun acc v => body v acc) (seqZ lo (hi - lo + 1)) s.

Module MaskCanvas.

(** The mask update of [drawMask], at the canvas pixel [(px, py)] the pointer
    is over: every pixel of the raster within [radius] of it is marked 1.  The
    red overlay drawn on the canvas is not modelled.  The result is the new
    content of [maskRef.current], which is also what [onMaskChange]
    receives. *)
Definition drawMask (width height : nat) (brushSize px py : Z) (maskRef : Uint8Array)
  : Uint8Array :=
  let radius := (brushSize / 2)%Z in
  for_z (- radius) radius
    (fun dy m =>
       for_z (- radius) radius
         (fun dx m' =>
            if (dx * dx + dy * dy <=? radius * radius)%Z
            then
              let nx := (px + dx)%Z in
              let ny := (py + dy)%Z in
              if (0 <=? nx)%Z && (nx <? Z.of_nat width)%Z
                 && (0 <=? ny)%Z && (ny <? Z.of_nat height)%Z
              then <[Z.to_nat (ny * Z.of_nat width + nx) := 1]> m'
              else m'
            else m')
         m)
    maskRef.

(** [maskRef.current.fill(0)] in [handleClearMask]. *)
Definition handleClearMask (maskRef : Uint8Array) : Uint8Array :=
  replicate (length maskRef) 0.

End MaskCanvas.

Module Handlers.

(** [handleMaskChange]: [setManualMask(mask)]. *)
Definition handleMaskChange (mask : Uint8Array) (st : App.State) : App.State :=
  {| App.originalTensor := App.originalTensor st;
     App.manualMask := Some mask;
     App.knownMask := App.knownMask st;
     App.damagedTensor := App.damagedTensor st;
     App.reconstructedTensor := App.reconstructedTensor st;
     App.residuals := App.residuals st;
     App.rmse := App.rmse st;
     App.iterations := App.iterations st;
     App.useManualMask := App.useManualMask st;
     App.damagePercent := App.damagePercent st;
     App.lambda := App.lambda st;
     App.beta := App.beta st;
     App.maxIter := App.maxIter st;
     App.tol := App.tol st |}.

(** The [img.onload] callback of [handleImageUpload], from the pixels
    [getImageData] returned. *)
Definition imageLoaded (imageData : ImageData.t) (st : App.State) : App.State :=
  {| App.originalTensor := Some (rgbaToTensor imageData);
     App.manualMask :=
       Some (replicate (ImageData.width imageData * ImageData.height imageData) 0);
     App.knownMask := None;
     App.damagedTensor := None;
     App.reconstructedTensor := None;
     App.residuals := [];
     App.rmse := App.rmse st;
     App.iterations := App.iterations st;
     App.useManualMask := App.useManualMask st;
     App.damagePercent := App.damagePercent st;
     App.lambda := App.lambda st;
     App.beta := App.beta st;
     App.maxIter := App.maxIter st;
     App.tol := App.tol st |}.

(** [const paintedPixels = manualMask ? manualMask.reduce(...) : 0] *)
Definition paintedPixels (st : App.State) : nat :=
  match App.manualMask st with
  | Some mask => App.paintedCount mask
  | None => 0
  end.

(** [const unknownPixels = knownMask ? knownMask.filter(v => v === 0).length : 0] *)
Definition unknownPixels (st : App.State) : nat :=
  match App.knownMask st with
  | Some known => length (List.filter (fun v => v =? 0) known)
  | None => 0
  end.

End Handlers.

(** The damaged tensor and the known mask are set together, and the damaged
    tensor is the damaged view of the loaded image under the mask. *)
Definition consistent (st : App.State) : Prop :=
  match App.knownMask st, App.damagedTensor st with
  | Some known, Some damaged =>
      exists t, App.originalTensor st = Some t /\ damaged = makeDamagedView t known
  | None, None => True
  | _, _ => False
  end.

(** The mask with every slot of [targets] marked 1. *)
Definition mark_all (targets : list nat) (mask : Uint8Array) : Uint8Array :=
  fold_left (fun m j => <[j := 1]> m) targets mask.

(** The slots a stroke marks: the raster pixels within [radius] of [(px, py)],
    in the order of the two loops of [drawMask]. *)
Definition stroke_targets (width height : nat) (radius px py : Z) : list nat :=
  flat_map
    (fun dy =>
       map (fun dx => Z.to_nat ((py + dy) * Z.of_nat width + (px + dx)))
           (List.filter
              (fun dx =>
                 (dx * dx + dy * dy <=? radius * radius)%Z
                 && ((0 <=? px + dx)%Z && (px + dx <? Z.of_nat width)%Z
                     && (0 <=? py + dy)%Z && (py + dy <? Z.of_nat height)%Z))
              (seqZ (- radius) (radius - - radius + 1))))
    (seqZ (- radius) (radius - - radius + 1)).

(** A tolerance that is 0, negative or NaN. *)
Definition not_positive (x : num) : Prop :=
  match x with
  | S754_zero _ | S754_nan => True
  | S754_infinity s | S754_finite s _ _ => s = true
  end.

(** A number that is +0, positive, +infinity or NaN. *)
Definition not_negative (x : num) : Prop :=
  match x with
  | S754_zero s | S754_infinity s | S754_finite s _ _ => s = false
  | S754_nan => True
  end.

(* ------------------------------------------------------------------ *)
(** ** Loops and typed arrays *)
(* ------------------------------------------------------------------ *)

Section Loops.
Context {A : Type}.
Implicit Types (body : nat -> A -> A) (s : A).

Lemma for_range_0 body s : for_range 0 body s = s.
Proof. reflexivity. Qed.

Lemma for_range_S n body s :
  for_range (S n) body s = body n (for_range n body s).
Proof. unfold for_range. rewrite seq_S, fold_left_app. reflexivity. Qed.

(** A property kept by every iteration below the bound is kept by the loop. *)
Lemma for_range_inv (P : A -> Prop) n body s :
  P s -> (forall i a, i < n -> P a -> P (body i a)) -> P (for_range n body s).
Proof.
  intros Hs Hstep. induction n as [|n IH].
  - exact Hs.
  - rewrite for_range_S. apply Hstep; [lia|]. apply IH.
    intros i a Hi. apply Hstep. lia.
Qed.

(** Two bodies that agree below the bound give the same loop. *)
Lemma for_range_ext n body body' s :
  (forall i a, i < n -> body i a = body' i a) ->
  for_range n body s = for_range n body' s.
Proof.
  intros Heq. induction n as [|n IH].
  - reflexivity.
  - rewrite !for_range_S, IH by (intros; apply Heq; lia). apply Heq. lia.
Qed.

(** A body that does nothing below the bound gives a loop that does nothing. *)
Lemma for_range_id n body s :
  (forall i, i < n -> body i s = s) -> for_range n body s = s.
Proof.
  intros Hid. induction n as [|n IH].
  - reflexivity.
  - rewrite for_range_S, IH by (intros; apply Hid; lia). apply Hid. lia.
Qed.
End Loops.

Lemma fround_zero : fround zero = zero.
Proof. reflexivity. Qed.

Lemma fround_nan : fround nan = nan.
Proof. reflexivity. Qed.

Lemma setF_length a i v : length (setF a i v) = length a.
Proof. unfold setF. apply length_insert. Qed.

Lemma setF_lookup_ne (a : Float32Array) i j v : i <> j -> setF a i v !! j = a !! j.
Proof. intros Hne. unfold setF. apply list_lookup_insert_ne. exact Hne. Qed.

Lemma setF_lookup_eq (a : Float32Array) i v w :
  setF a i v !! i = Some w -> w = fround v.
Proof.
  unfold setF. intros Hl.
  destruct (decide (i < length a)) as [Hlt|Hge].
  - rewrite list_lookup_insert_eq in Hl by exact Hlt. congruence.
  - rewrite list_insert_ge in Hl by lia.
    apply lookup_lt_Some in Hl. lia.
Qed.

(** Reading a stored binary32 value back and storing it again changes
    nothing. *)
Lemma setF_same (a : Float32Array) i :
  Forall is_f32 a -> setF a i (getF a i) = a.
Proof.
  intros Hf. unfold setF, getF.
  destruct (a !! i) as [v|] eqn:Hv; simpl.
  - assert (Hv32 : fround v = v).
    { exact (Forall_lookup_1 _ _ _ _ Hf Hv). }
    rewrite Hv32. apply list_insert_id. exact Hv.
  - apply list_insert_ge. apply lookup_ge_None. exact Hv.
Qed.

(** Pixel indices and channel offsets address disjoint slots. *)
Lemma slot_inj Cn i j c c' :
  c < Cn -> c' < Cn -> i * Cn + c = j * Cn + c' -> i = j /\ c = c'.
Proof.
  intros Hc Hc' Heq.
  assert (Hij : i = j).
  { destruct (Nat.lt_trichotomy i j) as [Hlt|[Hij|Hgt]]; [|exact Hij|].
    - pose proof (Nat.mul_le_mono_r (i + 1) j Cn). lia.
    - pose proof (Nat.mul_le_mono_r (j + 1) i Cn). lia. }
  subst j. split; [reflexivity|lia].
Qed.

(* ------------------------------------------------------------------ *)
(** ** rmseOnMissing *)
(* ------------------------------------------------------------------ *)

Lemma fold_fadd_map {B : Type} (f : B -> num) (l : list B) (s : num) :
  fold_left (fun acc b => fadd acc (f b)) l s = fold_left fadd (map f l) s.
Proof. revert s. induction l as [|b l IH]; intros s; simpl; [reflexivity|apply IH]. Qed.

Lemma rmse_pixel_terms original reconstructed i s :
  rmse_pixel original reconstructed i s =
  fold_left fadd
    (map (sq_diff original reconstructed) (map (fun c => (i, c)) (seq 0 (C original)))) s.
Proof.
  unfold rmse_pixel, for_range. rewrite map_map.
  rewrite <- fold_fadd_map. reflexivity.
Qed.

(** The two accumulators after the first [n] pixels. *)
Lemma rmse_loop_prefix original reconstructed known n :
  for_range n
    (fun i '(sumSqError, count) =>
       if is_at known i 0
       then (rmse_pixel original reconstructed i sumSqError, count + C original)
       else (sumSqError, count))
    (zero, 0)
  = (let terms :=
       flat_map (fun i => if is_at known i 0
                          then map (fun c => (i, c)) (seq 0 (C original)) else [])
                (seq 0 n) in
     (fsum (map (sq_diff original reconstructed) terms), length terms)).
Proof.
  induction n as [|n IH].
  - reflexivity.
  - rewrite for_range_S, IH. cbv zeta.
    rewrite seq_S, flat_map_app. simpl flat_map. rewrite app_nil_r.
    destruct (is_at known n 0).
    + rewrite rmse_pixel_terms. unfold fsum.
      rewrite map_app, fold_left_app, !length_app, !length_map, length_seq.
      reflexivity.
    + rewrite app_nil_r. reflexivity.
Qed.

Lemma rmse_loop_terms original reconstructed known :
  rmse_loop original reconstructed known =
  (fsum (map (sq_diff original reconstructed) (unknown_terms original known)),
   length (unknown_terms original known)).
Proof. unfold rmse_loop. rewrite rmse_loop_prefix. reflexivity. Qed.

Lemma rmseOnMissing_spec original reconstructed known :
  rmseOnMissing original reconstructed known = rmse_spec original reconstructed known.
Proof.
  unfold rmseOnMissing, rmse_spec. rewrite rmse_loop_terms.
  destruct (unknown_terms original known) as [|t ts]; reflexivity.
Qed.

(** No pixel of the raster is unknown: there is no term. *)
Lemma unknown_terms_none t known :
  (forall i, i < H t * W t -> known !! i <> Some 0) -> unknown_terms t known = [].
Proof.
  intros Hk. unfold unknown_terms.
  induction (H t * W t) as [|n IH].
  - reflexivity.
  - rewrite seq_S, flat_map_app, IH by (intros; apply Hk; lia). simpl.
    unfold is_at. rewrite bool_decide_eq_false_2 by (apply Hk; lia). reflexivity.
Qed.

Lemma elem_unknown_terms t known i c :
  In (i, c) (unknown_terms t known) <->
  i < H t * W t /\ known !! i = Some 0 /\ c < C t.
Proof.
  unfold unknown_terms. rewrite in_flat_map. split.
  - intros (j & Hj & Hin). apply in_seq in Hj.
    unfold is_at in Hin. destruct (bool_decide_reflect (known !! j = Some 0)) as [Hk|Hk].
    + apply in_map_iff in Hin. destruct Hin as (c' & Heq & Hc').
      apply in_seq in Hc'. inversion Heq; subst. repeat split; [lia|exact Hk|lia].
    + destruct Hin.
  - intros (Hi & Hk & Hc). exists i. split; [apply in_seq; lia|].
    unfold is_at. rewrite bool_decide_eq_true_2 by exact Hk.
    apply in_map_iff. exists c. split; [reflexivity|apply in_seq; lia].
Qed.

(** C9. [rmseOnMissing] is the square root of the sum of the squared
    per-channel differences over all channels of every pixel with
    [known[i] == 0] (added in buffer order), divided by the number of such
    (pixel, channel) terms; with no unknown pixel it returns 0 and divides
    nothing. *)
Theorem rmseOnMissing_mean_square original reconstructed known :
  rmseOnMissing original reconstructed known
  = match unknown_terms original known with
    | [] => zero
    | t :: ts =>
        fsqrt (fdiv (fsum (map (sq_diff original reconstructed) (t :: ts)))
                    (of_nat (length (t :: ts))))
    end
  /\ ((forall i, i < H original * W original -> known !! i <> Some 0) ->
      unknown_terms original known = [] /\
      rmseOnMissing original reconstructed known = zero)
  /\ (forall i c, (i, c) ∈ unknown_terms original known <->
                  i < H original * W original /\ known !! i = Some 0 /\ c < C original).
Proof.
  split; [|split].
  - rewrite rmseOnMissing_spec. unfold rmse_spec.
    destruct (unknown_terms original known); reflexivity.
  - intros Hk. split; [apply unknown_terms_none; exact Hk|].
    rewrite rmseOnMissing_spec. unfold rmse_spec.
    rewrite unknown_terms_none by exact Hk. reflexivity.
  - intros i c. rewrite list_elem_of_In. apply elem_unknown_terms.
Qed.

(* ------------------------------------------------------------------ *)
(** ** One sweep *)
(* ------------------------------------------------------------------ *)

Section Sweep.
Variables (damaged : Tensor) (known : Uint8Array).

(** A property of the sweep state kept by every channel update is kept by
    the sweep. *)
Lemma pixel_step_inv (P : Sweep -> Prop) y x st :
  (forall c st', c < C damaged -> P st' ->
                 P (known_channel damaged (y * W damaged + x) c st')) ->
  (forall c st', c < C damaged -> P st' ->
                 is_at known (y * W damaged + x) 1 = false ->
                 P (unknown_channel damaged (neighbors (H damaged) (W damaged) y x)
                                    (y * W damaged + x) c st')) ->
  P st -> P (pixel_step damaged known y x st).
Proof.
  intros Hk Hu Hst. unfold pixel_step.
  destruct (is_at known (y * W damaged + x) 1) eqn:Hat.
  - apply for_range_inv; [exact Hst|]. intros c a Hc Ha. apply Hk; assumption.
  - apply for_range_inv; [exact Hst|]. intros c a Hc Ha. apply Hu; auto.
Qed.

Lemma sweep_inv (P : Sweep -> Prop) U0 :
  P {| U := U0; totalChange := zero; changeCount := 0 |} ->
  (forall y x st, y < H damaged -> x < W damaged -> P st ->
                  P (pixel_step damaged known y x st)) ->
  P (sweep damaged known U0).
Proof.
  intros H0 Hstep. unfold sweep.
  apply for_range_inv; [exact H0|]. intros y st Hy Hst.
  apply for_range_inv; [exact Hst|]. intros x st' Hx Hst'.
  apply Hstep; assumption.
Qed.

(** A sweep keeps the length of the buffer. *)
Lemma sweep_length U0 : length (U (sweep damaged known U0)) = length U0.
Proof.
  apply (sweep_inv (fun st => length (U st) = length U0)); [reflexivity|].
  intros y x st _ _ Hst. apply pixel_step_inv; [| |exact Hst].
  - intros c st' _ Hl. simpl. rewrite setF_length. exact Hl.
  - intros c st' _ Hl _. simpl. rewrite setF_length. exact Hl.
Qed.

Lemma buffer_after_length U0 k : length (buffer_after damaged known U0 k) = length U0.
Proof.
  induction k as [|k IH]; [reflexivity|].
  unfold buffer_after in *. simpl. unfold sweep_step at 1.
  rewrite sweep_length. exact IH.
Qed.

Lemma buffer_after_S U0 k :
  buffer_after damaged known U0 (S k)
  = buffer_after damaged known (sweep_step damaged known U0) k.
Proof. unfold buffer_after. apply Nat.iter_succ_r. Qed.

(** *** Known pixels *)

Hypothesis data_f32 : Forall is_f32 (data damaged).

Lemma getF_data_f32 q : fround (getF (data damaged) q) = getF (data damaged) q.
Proof.
  unfold getF. destruct (data damaged !! q) as [v|] eqn:Hv; simpl.
  - exact (Forall_lookup_1 _ _ _ _ data_f32 Hv).
  - reflexivity.
Qed.

(** Reimposing a damaged value anywhere keeps a slot that agrees with the
    damaged buffer. *)
Lemma reimpose_keeps (V : Float32Array) q p :
  V !! p = data damaged !! p ->
  setF V q (getF (data damaged) q) !! p = data damaged !! p.
Proof.
  intros Hp. destruct (decide (q = p)) as [->|Hne].
  - unfold setF. rewrite getF_data_f32.
    destruct (decide (p < length V)) as [Hlt|Hge].
    + rewrite list_lookup_insert_eq by exact Hlt.
      destruct (lookup_lt_is_Some_2 V p Hlt) as [u Hu].
      unfold getF. rewrite <- Hp, Hu. reflexivity.
    + rewrite list_insert_ge by lia. exact Hp.
  - rewrite setF_lookup_ne by exact Hne. exact Hp.
Qed.

Lemma sweep_known_fixed U0 :
  known_fixed damaged known U0 -> known_fixed damaged known (U (sweep damaged known U0)).
Proof.
  intros HU0.
  apply (sweep_inv (fun st => known_fixed damaged known (U st))); [exact HU0|].
  intros y x st _ _ Hst. apply pixel_step_inv; [| |exact Hst].
  - intros c st' _ Hfix i c' Hi Hc'. simpl. apply reimpose_keeps. apply Hfix; assumption.
  - intros c st' Hc Hfix Hat i c' Hi Hc'. simpl.
    rewrite setF_lookup_ne; [apply Hfix; assumption|].
    intros Heq. apply slot_inj in Heq; [|assumption..].
    destruct Heq as [Heq _]. unfold is_at in Hat.
    apply bool_decide_eq_false_1 in Hat. apply Hat. rewrite Heq. exact Hi.
Qed.

Lemma buffer_after_known_fixed U0 k :
  known_fixed damaged known U0 -> known_fixed damaged known (buffer_after damaged known U0 k).
Proof.
  intros HU0. induction k as [|k IH]; [exact HU0|].
  unfold buffer_after in *. simpl. apply sweep_known_fixed. exact IH.
Qed.

(** *** A mask without unknown pixel *)

Hypothesis all_known : forall i, i < H damaged * W damaged -> known !! i = Some 1.

Lemma pixel_in_raster y x :
  y < H damaged -> x < W damaged -> y * W damaged + x < H damaged * W damaged.
Proof.
  intros Hy Hx. pose proof (Nat.mul_le_mono_r (y + 1) (H damaged) (W damaged)). lia.
Qed.

Lemma sweep_all_known :
  sweep damaged known (data damaged)
  = {| U := data damaged; totalChange := zero; changeCount := 0 |}.
Proof.
  unfold sweep. apply for_range_id. intros y Hy.
  apply for_range_id. intros x Hx.
  unfold pixel_step, is_at.
  rewrite bool_decide_eq_true_2 by (apply all_known, pixel_in_raster; assumption).
  apply for_range_id. intros c _.
  unfold known_channel. simpl. rewrite setF_same by exact data_f32. reflexivity.
Qed.
End Sweep.

(* ------------------------------------------------------------------ *)
(** ** The iteration loop *)
(* ------------------------------------------------------------------ *)

Section Loop.
Variables (damaged : Tensor) (known : Uint8Array) (tol : num).

(** [iterate] is the source loop: with [maxIter - iter] iterations left it
    tests [iter < maxIter], sweeps, pushes the residual, and either breaks
    or increments [iter]. *)
Lemma iterate_unfold (maxIter iter : Z) U0 rs :
  iterate damaged known tol (Z.to_nat (maxIter - iter)) iter U0 rs
  = if (iter <? maxIter)%Z
    then let st := sweep damaged known U0 in
         let rs' := rs ++ [avgChange st] in
         if flt (avgChange st) tol
         then (iter, U st, rs')
         else iterate damaged known tol (Z.to_nat (maxIter - (iter + 1)))
                      (iter + 1)%Z (U st) rs'
    else (iter, U0, rs).
Proof.
  destruct (Z.ltb_spec iter maxIter) as [Hlt|Hge].
  - replace (Z.to_nat (maxIter - iter)) with (S (Z.to_nat (maxIter - (iter + 1)))) by lia.
    reflexivity.
  - replace (Z.to_nat (maxIter - iter)) with 0 by lia. reflexivity.
Qed.

Lemma residual_after_S U0 k :
  residual_after damaged known U0 (S k)
  = residual_after damaged known (sweep_step damaged known U0) k.
Proof. unfold residual_after. rewrite buffer_after_S. reflexivity. Qed.

(** What the loop returns: it performs [j <= n] sweeps, no residual but the
    last is below [tol], and either the last one is (a [break], the counter
    is the index of that sweep) or all [n] sweeps were performed (the counter
    is [n] past its start). *)
Lemma iterate_spec n : forall iter U0 rs,
  exists j iter',
    j <= n /\
    iterate damaged known tol n iter U0 rs
    = (iter', buffer_after damaged known U0 j,
       rs ++ map (residual_after damaged known U0) (seq 0 j)) /\
    (forall k, k + 1 < j -> flt (residual_after damaged known U0 k) tol = false) /\
    ((exists k, j = S k /\ flt (residual_after damaged known U0 k) tol = true /\
                iter' = (iter + Z.of_nat k)%Z)
     \/ (j = n /\ (forall k, k < n -> flt (residual_after damaged known U0 k) tol = false) /\
         iter' = (iter + Z.of_nat n)%Z)).
Proof.
  induction n as [|n IH]; intros iter U0 rs.
  - exists 0, iter. split; [lia|]. split; [simpl; rewrite app_nil_r; reflexivity|].
    split; [intros k Hk; lia|]. right. split; [reflexivity|].
    split; [intros k Hk; lia|lia].
  - simpl iterate.
    destruct (flt (avgChange (sweep damaged known U0)) tol) eqn:Hlt.
    + exists 1, iter. split; [lia|]. split; [reflexivity|].
      split; [intros k Hk; lia|]. left. exists 0.
      split; [reflexivity|]. split; [exact Hlt|lia].
    + destruct (IH (iter + 1)%Z (U (sweep damaged known U0))
                   (rs ++ [avgChange (sweep damaged known U0)]))
        as (j & iter' & Hj & Heq & Hbefore & Hend).
      exists (S j), iter'. split; [lia|]. split.
      { rewrite Heq, buffer_after_S. f_equal. rewrite <- app_assoc. f_equal.
        simpl. f_equal. rewrite <- seq_shift, map_map.
        apply map_ext. intros k. symmetry. apply residual_after_S. }
      split.
      { intros [|k] Hk; [exact Hlt|]. rewrite residual_after_S. apply Hbefore. lia. }
      destruct Hend as [(k & -> & Hk & ->)|(-> & Hall & ->)].
      * left. exists (S k). split; [reflexivity|].
        split; [rewrite residual_after_S; exact Hk|lia].
      * right. split; [reflexivity|]. split; [|lia].
        intros [|k] Hk; [exact Hlt|]. rewrite residual_after_S. apply Hall. lia.
Qed.
End Loop.

(** The result of a call, in terms of the number [j] of sweeps performed. *)
Lemma inpaint_shape damaged known lambda beta maxIter tol :
  exists j iter',
    j <= Z.to_nat maxIter /\
    inpaintGaussSeidel damaged known lambda beta maxIter tol
    = (let rec := {| H := H damaged; W := W damaged; C := C damaged;
                     data := U_after damaged known j |} in
       {| reconstructed := rec;
          residuals := map (residual_after damaged known (data damaged)) (seq 0 j);
          rmse := rmseOnMissing damaged rec known;
          iterations := (iter' + 1)%Z |}) /\
    (forall k, k + 1 < j ->
               flt (residual_after damaged known (data damaged) k) tol = false) /\
    ((exists k, j = S k /\
                flt (residual_after damaged known (data damaged) k) tol = true /\
                iter' = Z.of_nat k)
     \/ (j = Z.to_nat maxIter /\
         (forall k, k < j -> flt (residual_after damaged known (data damaged) k) tol = false) /\
         iter' = Z.of_nat j)).
Proof.
  destruct (iterate_spec damaged known tol (Z.to_nat maxIter) 0%Z (data damaged) [])
    as (j & iter' & Hj & Heq & Hbefore & Hend).
  exists j, iter'. split; [exact Hj|]. split.
  { unfold inpaintGaussSeidel. rewrite Heq. reflexivity. }
  split; [exact Hbefore|].
  destruct Hend as [(k & -> & Hk & ->)|(-> & Hall & ->)].
  - left. exists k. split; [reflexivity|]. split; [exact Hk|lia].
  - right. split; [reflexivity|]. split; [exact Hall|lia].
Qed.

Lemma lookup_residuals damaged known U0 j k r :
  map (residual_after damaged known U0) (seq 0 j) !! k = Some r <->
  k < j /\ r = residual_after damaged known U0 k.
Proof.
  rewrite list_lookup_fmap. split.
  - intros Hl. destruct (seq 0 j !! k) as [i|] eqn:Hi; [|discriminate].
    apply lookup_seq in Hi. destruct Hi as [-> Hk]. simpl in Hl.
    split; [exact Hk|congruence].
  - intros [Hk ->]. rewrite (lookup_seq_lt 0 j k Hk). reflexivity.
Qed.

Lemma all_ones_lookup t known i :
  all_ones t known -> i < H t * W t -> known !! i = Some 1.
Proof.
  intros [Hlen Hall] Hi.
  destruct (lookup_lt_is_Some_2 known i) as [v Hv]; [lia|].
  rewrite Hv. f_equal. exact (Forall_lookup_1 _ _ _ _ Hall Hv).
Qed.

(** The count reported is the number of sweeps when the loop stopped on the
    tolerance, and one more when it ran out of iterations. *)
Lemma iterations_reported damaged known lambda beta maxIter tol :
  let r := inpaintGaussSeidel damaged known lambda beta maxIter tol in
  (exists res, last (residuals r) = Some res /\ flt res tol = true /\
               iterations r = Z.of_nat (sweeps_done r))
  \/ (Forall (fun res => flt res tol = false) (residuals r) /\
      sweeps_done r = Z.to_nat maxIter /\
      iterations r = (Z.of_nat (sweeps_done r) + 1)%Z).
Proof.
  destruct (inpaint_shape damaged known lambda beta maxIter tol)
    as (j & iter' & Hj & Heq & Hbefore & Hend).
  cbv zeta. rewrite Heq. unfold sweeps_done. simpl.
  rewrite length_map, length_seq.
  destruct Hend as [(k & -> & Hk & ->)|(-> & Hall & ->)].
  - left. exists (residual_after damaged known (data damaged) k).
    split; [|split; [exact Hk|lia]].
    rewrite seq_S, map_app. simpl. apply last_snoc.
  - right. split; [|split; [reflexivity|lia]].
    apply Forall_forall. intros res Hin. apply list_elem_of_lookup in Hin.
    destruct Hin as [k Hk]. apply lookup_residuals in Hk. destruct Hk as [Hk ->].
    apply Hall. exact Hk.
Qed.

(* ------------------------------------------------------------------ *)
(** ** Properties of the reconstruction engine *)
(* ------------------------------------------------------------------ *)

(** C2 (the code departs from it).  On the 1 x 2 image with its right pixel
    damaged, [maxIter = 1] and the default tolerance, one sweep is performed,
    its residual 0.3125 is not below the tolerance, and the loop runs out of
    iterations: the count reported is [iter + 1 = 2], which is neither the
    number of sweeps nor within [1, maxIter]. *)
Theorem iterations_exceeds_maxIter :
  let r := inpaintGaussSeidel half_damaged [1; 0] zero zero 1 tol_default in
  sweeps_done r = 1 /\
  residuals r = [dyadic 5 (-4)] /\
  flt (dyadic 5 (-4)) tol_default = false /\
  iterations r = 2%Z /\
  ~ (iterations r <= 1)%Z.
Proof.
  cbv zeta. split; [vm_compute; reflexivity|].
  split; [vm_compute; reflexivity|].
  split; [vm_compute; reflexivity|].
  split; [vm_compute; reflexivity|].
  vm_compute. intros Hle. apply Hle. reflexivity.
Qed.

(** The same on the settings the sliders offer: the smallest [maxIter], 100,
    and the default tolerance, on the strip, which needs more sweeps. *)
Example iterations_exceeds_slider_minimum :
  let r := inpaintGaussSeidel (makeDamagedView white_strip strip_known) strip_known
                              (dyadic 1 (-1)) (dyadic 3 (-1)) 100 tol_default in
  sweeps_done r = 100 /\ iterations r = 101%Z.
Proof. cbv zeta. split; vm_compute; reflexivity. Qed.

(** C4.  Whatever the input, after any number of sweeps the working buffer
    holds, at every channel of every pixel with [known[i] == 1], exactly the
    value of the damaged tensor there; so does the buffer returned, which is
    the working buffer after the sweeps performed. *)
Theorem known_pixels_never_altered damaged known
    (data_f32 : Forall is_f32 (data damaged)) :
  forall i c, known !! i = Some 1 -> c < C damaged ->
    (forall k, U_after damaged known k !! (i * C damaged + c)
               = data damaged !! (i * C damaged + c))
    /\ (forall lambda beta maxIter tol,
          let r := inpaintGaussSeidel damaged known lambda beta maxIter tol in
          data (reconstructed r) = U_after damaged known (sweeps_done r) /\
          data (reconstructed r) !! (i * C damaged + c)
          = data damaged !! (i * C damaged + c)).
Proof.
  intros i c Hi Hc.
  assert (Hall : forall k, U_after damaged known k !! (i * C damaged + c)
                           = data damaged !! (i * C damaged + c)).
  { intros k. unfold U_after.
    apply (buffer_after_known_fixed damaged known data_f32 (data damaged) k);
      [|exact Hi|exact Hc].
    intros i' c' _ _. reflexivity. }
  split; [exact Hall|].
  intros lambda beta maxIter tol. cbv zeta.
  destruct (inpaint_shape damaged known lambda beta maxIter tol)
    as (j & iter' & _ & Heq & _).
  rewrite Heq. unfold sweeps_done. simpl. rewrite length_map, length_seq.
  split; [reflexivity|apply Hall].
Qed.

Lemma half_damaged_f32 : Forall is_f32 (data half_damaged).
Proof. repeat constructor. Qed.

Lemma known_pixels_never_altered_witness :
  U_after half_damaged [1; 0] 5 !! (0 * 3 + 2) = Some one.
Proof.
  exact (proj1 (known_pixels_never_altered half_damaged [1; 0] half_damaged_f32
                  0 2 eq_refl ltac:(simpl; lia)) 5).
Defined.

(** C5.  The fidelity weight [lambda] and the smoothness weight [beta] have no
    effect: two calls that agree on the other arguments return the same
    result (tensor, residuals, RMSE and count). *)
Theorem lambda_beta_inert damaged known maxIter tol lambda1 beta1 lambda2 beta2 :
  inpaintGaussSeidel damaged known lambda1 beta1 maxIter tol
  = inpaintGaussSeidel damaged known lambda2 beta2 maxIter tol.
Proof. reflexivity. Qed.

(** C6 (as stated, refuted).  With [maxIter = 1] on an image without unknown
    pixel, the only sweep has residual 0, below the tolerance, and yet the
    engine performed [maxIter] sweeps, not fewer. *)
Lemma below_tol_on_last_sweep :
  let r := inpaintGaussSeidel white_1x1 [1] zero zero 1 tol_default in
  ~ ((Z.of_nat (sweeps_done r) < 1)%Z <->
     exists k res, residuals r !! k = Some res /\ flt res tol_default = true).
Proof.
  cbv zeta. intros [_ Hback].
  lapply Hback.
  - intros Hlt. vm_compute in Hlt. discriminate Hlt.
  - exists 0, zero. split; vm_compute; reflexivity.
Qed.

(** C6 (amended).  Every call returns a result; it performs at most [maxIter]
    sweeps (none when [maxIter <= 0]), and fewer than [maxIter] if and only if
    some sweep before the [maxIter]-th has a residual below [tol]. *)
Theorem sweeps_bounded_by_maxIter damaged known lambda beta maxIter tol :
  let r := inpaintGaussSeidel damaged known lambda beta maxIter tol in
  (Z.of_nat (sweeps_done r) <= Z.max 0 maxIter)%Z /\
  ((Z.of_nat (sweeps_done r) < maxIter)%Z <->
   exists k res, residuals r !! k = Some res /\ flt res tol = true /\
                 (Z.of_nat k + 1 < maxIter)%Z).
Proof.
  destruct (inpaint_shape damaged known lambda beta maxIter tol)
    as (j & iter' & Hj & Heq & Hbefore & Hend).
  cbv zeta. rewrite Heq. unfold sweeps_done. simpl.
  rewrite length_map, length_seq. split; [lia|]. split.
  - intros Hlt. destruct Hend as [(k & -> & Hk & _)|(-> & _)]; [|lia].
    exists k, (residual_after damaged known (data damaged) k).
    split; [apply lookup_residuals; split; [lia|reflexivity]|].
    split; [exact Hk|lia].
  - intros (k & res & Hl & Hres & Hk).
    apply lookup_residuals in Hl. destruct Hl as [Hkj ->].
    destruct (decide (k + 1 < j)) as [Hearly|Hlast].
    + rewrite (Hbefore k Hearly) in Hres. discriminate Hres.
    + lia.
Qed.

(** C8 (as stated, refuted).  With [maxIter = 0] on an all-ones mask and a
    positive tolerance no sweep runs: the residual sequence is empty, not
    [[0]]. *)
Lemma all_known_without_sweep :
  all_ones white_1x1 [1] /\
  Forall is_f32 (data white_1x1) /\
  flt zero tol_default = true /\
  residuals (inpaintGaussSeidel white_1x1 [1] zero zero 0 tol_default) <> [zero].
Proof.
  split; [split; [reflexivity|repeat constructor]|].
  split; [repeat constructor|].
  split; [reflexivity|].
  vm_compute. discriminate.
Qed.

(** C8 (amended).  If the known mask is all-ones, [tol > 0] and
    [maxIter >= 1], the engine returns the residual sequence [[0]], the count 1
    and a tensor identical to the damaged one. *)
Theorem all_known_shortcut damaged known lambda beta maxIter tol :
  Forall is_f32 (data damaged) ->
  all_ones damaged known ->
  flt zero tol = true ->
  (1 <= maxIter)%Z ->
  let r := inpaintGaussSeidel damaged known lambda beta maxIter tol in
  residuals r = [zero] /\ iterations r = 1%Z /\ reconstructed r = damaged.
Proof.
  intros Hf32 Hones Htol Hmax. cbv zeta. unfold inpaintGaussSeidel.
  destruct (Z.to_nat maxIter) as [|n] eqn:Hn; [lia|].
  simpl iterate.
  rewrite (sweep_all_known damaged known Hf32
             (fun i Hi => all_ones_lookup damaged known i Hones Hi)).
  unfold avgChange. simpl. rewrite Htol. simpl.
  split; [reflexivity|]. split; [reflexivity|].
  destruct damaged; reflexivity.
Qed.

Lemma all_known_shortcut_witness :
  let r := inpaintGaussSeidel white_1x2 [1; 1] zero zero 1000 tol_default in
  residuals r = [zero] /\ iterations r = 1%Z /\ reconstructed r = white_1x2.
Proof.
  apply all_known_shortcut.
  - repeat constructor.
  - split; [reflexivity|repeat constructor].
  - reflexivity.
  - lia.
Defined.

(** C1 (the code departs from it).  The engine calls [rmseOnMissing] with the
    damaged tensor where the metric expects the original.  On the white 1 x 2
    image with its right pixel damaged the reconstruction converges to within
    0.001 of the source, and the engine reports an RMSE above 0.999: the root
    mean square of the reconstructed samples, not their distance to the
    source. *)
Theorem rmse_not_against_source :
  let known := [1; 0] in
  let r := inpaintGaussSeidel (makeDamagedView white_1x2 known) known zero zero
                              1000 tol_default in
  rmse r <> rmseOnMissing white_1x2 (reconstructed r) known /\
  rmse r = rmseOnMissing (makeDamagedView white_1x2 known) (reconstructed r) known /\
  flt (fdiv (of_Z 999) (of_Z 1000)) (rmse r) = true /\
  flt (rmseOnMissing white_1x2 (reconstructed r) known) (fdiv (of_Z 1) (of_Z 1000)) = true.
Proof.
  cbv zeta. split; [vm_compute; discriminate|].
  split; [reflexivity|].
  split; vm_compute; reflexivity.
Qed.

(* ------------------------------------------------------------------ *)
(** ** The sweep as a Gauss-Seidel pass with over-relaxation *)
(* ------------------------------------------------------------------ *)

Section Relaxation.
Variables (damaged : Tensor) (known : Uint8Array).

Lemma sample_nat (V : Float32Array) (a b c : nat) :
  sample damaged V (Z.of_nat a) (Z.of_nat b) c
  = getF V ((a * W damaged + b) * C damaged + c).
Proof.
  unfold sample. f_equal.
  rewrite <- !Nat2Z.inj_mul, <- !Nat2Z.inj_add, <- Nat2Z.inj_mul, <- Nat2Z.inj_add.
  apply Nat2Z.id.
Qed.

Lemma clamp_pred (n v : nat) :
  v < n -> clamp 0 (Z.of_nat n - 1) (Z.of_nat v - 1) = Z.of_nat (Nat.max 0 (v - 1)).
Proof. intros Hv. unfold clamp. lia. Qed.

Lemma clamp_succ (n v : nat) :
  v < n -> clamp 0 (Z.of_nat n - 1) (Z.of_nat v + 1) = Z.of_nat (Nat.min (n - 1) (v + 1)).
Proof. intros Hv. unfold clamp. lia. Qed.

(** The source's channel update of an unknown pixel is the relaxation of the
    specification. *)
Lemma unknown_channel_relax y x c st :
  y < H damaged -> x < W damaged ->
  U (unknown_channel damaged (neighbors (H damaged) (W damaged) y x)
                     (y * W damaged + x) c st)
  = relax_channel damaged y x c (U st).
Proof.
  intros Hy Hx.
  unfold unknown_channel, relax_channel, sor_value, neighbour_mean, neighbors, omega.
  cbv zeta. simpl U. simpl fold_left.
  rewrite (clamp_pred _ _ Hy), (clamp_succ _ _ Hy), (clamp_pred _ _ Hx),
    (clamp_succ _ _ Hx), !sample_nat.
  reflexivity.
Qed.

Lemma known_loop_U y x n st :
  U (for_range n (known_channel damaged (y * W damaged + x)) st)
  = fold_left (fun V c => reimpose_channel damaged y x c V) (seq 0 n) (U st).
Proof.
  induction n as [|n IH]; [reflexivity|].
  rewrite for_range_S, seq_S, fold_left_app. simpl. rewrite IH. reflexivity.
Qed.

Lemma unknown_loop_U y x n st :
  y < H damaged -> x < W damaged ->
  U (for_range n (unknown_channel damaged (neighbors (H damaged) (W damaged) y x)
                                  (y * W damaged + x)) st)
  = fold_left (fun V c => relax_channel damaged y x c V) (seq 0 n) (U st).
Proof.
  intros Hy Hx. induction n as [|n IH]; [reflexivity|].
  rewrite for_range_S, seq_S, fold_left_app.
  rewrite unknown_channel_relax by assumption. rewrite IH. reflexivity.
Qed.

Lemma pixel_step_U y x st :
  y < H damaged -> x < W damaged ->
  U (pixel_step damaged known y x st) = gs_pixel damaged known (U st) (y, x).
Proof.
  intros Hy Hx. unfold pixel_step, gs_pixel. simpl fst. simpl snd.
  destruct (is_at known (y * W damaged + x) 1).
  - apply known_loop_U.
  - apply unknown_loop_U; assumption.
Qed.

Lemma row_U y m st :
  y < H damaged -> m <= W damaged ->
  U (for_range m (fun x st' => pixel_step damaged known y x st') st)
  = fold_left (gs_pixel damaged known) (map (fun x => (y, x)) (seq 0 m)) (U st).
Proof.
  intros Hy. induction m as [|m IH]; intros Hm; [reflexivity|].
  rewrite for_range_S, seq_S, map_app, fold_left_app.
  rewrite pixel_step_U by lia. rewrite IH by lia. reflexivity.
Qed.

Lemma rows_U n st :
  n <= H damaged ->
  U (for_range n
       (fun y st' =>
          for_range (W damaged) (fun x st'' => pixel_step damaged known y x st'') st')
       st)
  = fold_left (gs_pixel damaged known) (row_major n (W damaged)) (U st).
Proof.
  unfold row_major. induction n as [|n IH]; intros Hn; [reflexivity|].
  rewrite for_range_S, seq_S, flat_map_app, fold_left_app.
  rewrite row_U by lia. rewrite IH by lia.
  simpl flat_map. rewrite app_nil_r. reflexivity.
Qed.

Lemma sweep_U U0 : U (sweep damaged known U0) = gauss_seidel_sweep damaged known U0.
Proof. unfold sweep, gauss_seidel_sweep. rewrite rows_U by lia. reflexivity. Qed.
End Relaxation.

(** The buffer after [k] sweeps is [k] Gauss-Seidel passes of the
    specification. *)
Lemma buffer_after_fold damaged known U0 k :
  buffer_after damaged known U0 k
  = Nat.iter k
      (fun V => fold_left (gs_pixel damaged known) (row_major (H damaged) (W damaged)) V)
      U0.
Proof.
  unfold buffer_after. induction k as [|k IH]; [reflexivity|].
  simpl. rewrite IH. unfold sweep_step. apply sweep_U.
Qed.

(** C3.  Every iteration of the engine's loop replaces the working buffer by
    one sweep of it, and the tensor returned is the damaged buffer after as
    many sweeps as residuals were pushed (at least one when [maxIter >= 1]).
    In every sweep the pixels are treated in row-major order on one buffer, so
    that a pixel sees the values already written in this sweep (Gauss-Seidel),
    and each channel of an unknown pixel is overwritten with
    [old + 1.25 * (mean - old)], rounded to the buffer's single precision,
    where [mean] is the average of the buffer at the four axis-aligned
    neighbours, each out-of-range coordinate clamped to the nearest valid row
    or column. *)
Theorem sor_update_in_place damaged known :
  (forall U0, sweep_step damaged known U0
              = fold_left (gs_pixel damaged known) (row_major (H damaged) (W damaged)) U0)
  /\ (forall V y x,
        is_at known (y * W damaged + x) 1 = false ->
        gs_pixel damaged known V (y, x)
        = fold_left (fun V' c => relax_channel damaged y x c V') (seq 0 (C damaged)) V)
  /\ (forall y x c st, y < H damaged -> x < W damaged ->
        let V := U st in
        let old := getF V ((y * W damaged + x) * C damaged + c) in
        let at_ (ny nx : Z) :=
          getF V (Z.to_nat ((ny * Z.of_nat (W damaged) + nx) * Z.of_nat (C damaged)
                            + Z.of_nat c)) in
        let up := at_ (Z.max 0 (Z.min (Z.of_nat (H damaged) - 1) (Z.of_nat y - 1)))
                      (Z.of_nat x) in
        let down := at_ (Z.max 0 (Z.min (Z.of_nat (H damaged) - 1) (Z.of_nat y + 1)))
                        (Z.of_nat x) in
        let left := at_ (Z.of_nat y)
                        (Z.max 0 (Z.min (Z.of_nat (W damaged) - 1) (Z.of_nat x - 1))) in
        let right := at_ (Z.of_nat y)
                         (Z.max 0 (Z.min (Z.of_nat (W damaged) - 1) (Z.of_nat x + 1))) in
        let mean := fdiv (fadd (fadd (fadd (fadd zero up) down) left) right) (of_Z 4) in
        U (unknown_channel damaged (neighbors (H damaged) (W damaged) y x)
                           (y * W damaged + x) c st)
        = <[(y * W damaged + x) * C damaged + c
            := fround (fadd old (fmul (dyadic 5 (-2)) (fsub mean old)))]> V
        /\ relax_channel damaged y x c V
           = <[(y * W damaged + x) * C damaged + c
               := fround (fadd old (fmul (dyadic 5 (-2)) (fsub mean old)))]> V)
  /\ (forall tol maxIter iter U0 rs,
        (iter < maxIter)%Z ->
        let V := fold_left (gs_pixel damaged known)
                           (row_major (H damaged) (W damaged)) U0 in
        let res := avgChange (sweep damaged known U0) in
        iterate damaged known tol (Z.to_nat (maxIter - iter)) iter U0 rs
        = if flt res tol
          then (iter, V, rs ++ [res])
          else iterate damaged known tol (Z.to_nat (maxIter - (iter + 1)))
                       (iter + 1)%Z V (rs ++ [res]))
  /\ (forall lambda beta maxIter tol,
        let r := inpaintGaussSeidel damaged known lambda beta maxIter tol in
        let pass := fun V => fold_left (gs_pixel damaged known)
                                       (row_major (H damaged) (W damaged)) V in
        data (reconstructed r) = Nat.iter (sweeps_done r) pass (data damaged) /\
        ((1 <= maxIter)%Z -> 1 <= sweeps_done r) /\
        (forall k res, residuals r !! k = Some res ->
           k < sweeps_done r /\
           res = avgChange (sweep damaged known (Nat.iter k pass (data damaged))))).
Proof.
  split; [|split; [|split; [|split]]].
  - intros U0. unfold sweep_step. apply sweep_U.
  - intros V y x Hat. unfold gs_pixel. simpl fst. simpl snd.
    rewrite Hat. reflexivity.
  - intros y x c st Hy Hx. cbv zeta.
    rewrite unknown_channel_relax by assumption.
    assert (Hrelax :
      relax_channel damaged y x c (U st)
      = <[(y * W damaged + x) * C damaged + c
          := fround
               (fadd (getF (U st) ((y * W damaged + x) * C damaged + c))
                  (fmul (dyadic 5 (-2))
                     (fsub
                        (fdiv
                           (fadd
                              (fadd
                                 (fadd
                                    (fadd zero
                                       (getF (U st)
                                          (Z.to_nat
                                             ((Z.max 0 (Z.min (Z.of_nat (H damaged) - 1)
                                                              (Z.of_nat y - 1))
                                               * Z.of_nat (W damaged) + Z.of_nat x)
                                              * Z.of_nat (C damaged) + Z.of_nat c))))
                                    (getF (U st)
                                       (Z.to_nat
                                          ((Z.max 0 (Z.min (Z.of_nat (H damaged) - 1)
                                                           (Z.of_nat y + 1))
                                            * Z.of_nat (W damaged) + Z.of_nat x)
                                           * Z.of_nat (C damaged) + Z.of_nat c))))
                                 (getF (U st)
                                    (Z.to_nat
                                       ((Z.of_nat y * Z.of_nat (W damaged)
                                         + Z.max 0 (Z.min (Z.of_nat (W damaged) - 1)
                                                          (Z.of_nat x - 1)))
                                        * Z.of_nat (C damaged) + Z.of_nat c))))
                              (getF (U st)
                                 (Z.to_nat
                                    ((Z.of_nat y * Z.of_nat (W damaged)
                                      + Z.max 0 (Z.min (Z.of_nat (W damaged) - 1)
                                                       (Z.of_nat x + 1)))
                                     * Z.of_nat (C damaged) + Z.of_nat c))))
                           (of_Z 4))
                        (getF (U st) ((y * W damaged + x) * C damaged + c)))))]>
          (U st)).
    { unfold relax_channel, setF, sor_value, neighbour_mean, clamp, sample. cbv zeta.
      rewrite <- (sample_nat damaged (U st) y x c). reflexivity. }
    split; exact Hrelax.
  - intros tol maxIter iter U0 rs Hlt. cbv zeta.
    rewrite iterate_unfold, (proj2 (Z.ltb_lt _ _) Hlt). cbv zeta.
    rewrite sweep_U. reflexivity.
  - intros lambda beta maxIter tol. cbv zeta.
    destruct (inpaint_shape damaged known lambda beta maxIter tol)
      as (j & iter' & Hj & Heq & _ & Hend).
    rewrite Heq. unfold sweeps_done. cbv zeta. cbn [reconstructed residuals data].
    rewrite length_map, length_seq.
    split; [unfold U_after; apply buffer_after_fold|]. split.
    + intros Hmax. destruct Hend as [(k & -> & _)|(-> & _)]; lia.
    + intros k res Hres. apply lookup_residuals in Hres. destruct Hres as [Hk ->].
      split; [exact Hk|]. unfold residual_after. rewrite buffer_after_fold. reflexivity.
Qed.

Lemma sor_update_in_place_witness :
  U (unknown_channel half_damaged (neighbors 1 2 0 1) 1 0
                     {| U := data half_damaged; totalChange := zero; changeCount := 0 |})
  = [one; one; one; dyadic 5 (-4); zero; zero]
  /\ 1 <= sweeps_done (inpaintGaussSeidel half_damaged [1; 0] zero zero 1 tol_default)
  /\ iterate half_damaged [1; 0] tol_default (Z.to_nat (1 - 0)) 0 (data half_damaged) []
     = (1%Z, [one; one; one; dyadic 5 (-4); dyadic 5 (-4); dyadic 5 (-4)],
        [dyadic 5 (-4)]).
Proof.
  split; [|split].
  - exact (proj1 (proj1 (proj2 (proj2 (sor_update_in_place half_damaged [1; 0]))) 0 1 0
                    {| U := data half_damaged; totalChange := zero; changeCount := 0 |}
                    ltac:(simpl; lia) ltac:(simpl; lia))).
  - exact (proj1 (proj2 (proj2 (proj2 (proj2 (proj2
             (sor_update_in_place half_damaged [1; 0]))))
             zero zero 1%Z tol_default)) ltac:(lia)).
  - rewrite (proj1 (proj2 (proj2 (proj2 (sor_update_in_place half_damaged [1; 0]))))
               tol_default 1%Z 0%Z (data half_damaged) [] ltac:(lia)).
    vm_compute. reflexivity.
Defined.

(* ------------------------------------------------------------------ *)
(** ** The manual mask *)
(* ------------------------------------------------------------------ *)

Lemma painted_sum_zero (mask : Uint8Array) (a : nat) :
  fold_left (fun sum val => sum + val) mask a = 0 <->
  a = 0 /\ Forall (fun v => v = 0) mask.
Proof.
  revert a. induction mask as [|v mask IH]; intros a; simpl.
  - split; [intros ->; split; [reflexivity|constructor]|intros [-> _]; reflexivity].
  - rewrite IH. split.
    + intros [Hav Hall]. split; [lia|]. constructor; [lia|exact Hall].
    + intros [-> Hall]. inversion Hall; subst. split; [reflexivity|assumption].
Qed.

Lemma paintedCount_zero mask :
  App.paintedCount mask = 0 <-> Forall (fun v => v = 0) mask.
Proof.
  unfold App.paintedCount. rewrite painted_sum_zero. split; [intros [_ Hm]|]; auto.
Qed.

Lemma invert_length mask : length (App.invert mask) = length mask.
Proof. unfold App.invert. apply length_map. Qed.

Lemma invert_lookup mask i v :
  mask !! i = Some v -> App.invert mask !! i = Some (if v =? 1 then 0 else 1).
Proof. intros Hv. unfold App.invert. rewrite list_lookup_fmap, Hv. reflexivity. Qed.

(** C7.  With the manual mask selected, an image loaded and a 0/1 paint mask:
    if no pixel is painted, [handleApplyDamage] raises the alert and leaves
    the state as it was (no known mask, no damaged tensor is set, and with no
    known mask [handleReconstruct] does nothing); if some pixel is painted, it sets the known mask to the complement of the paint
    mask, [known[i] = 1 - paint[i]], and the damaged tensor derived from it. *)
Theorem manual_mask_complement rand st t paint :
  App.originalTensor st = Some t ->
  App.useManualMask st = true ->
  App.manualMask st = Some paint ->
  binary_mask paint ->
  (Forall (fun v => v = 0) paint ->
     App.handleApplyDamage rand st = (st, Some App.NoPaintedPixels) /\
     (App.knownMask st = None ->
      App.handleReconstruct (fst (App.handleApplyDamage rand st)) = st))
  /\ (Exists (fun v => v = 1) paint ->
      exists known,
        App.handleApplyDamage rand st = (App.apply_known st t known, None) /\
        App.knownMask (App.apply_known st t known) = Some known /\
        App.damagedTensor (App.apply_known st t known) = Some (makeDamagedView t known) /\
        length known = length paint /\
        forall i v, paint !! i = Some v -> known !! i = Some (1 - v)).
Proof.
  intros Horig Hmanual Hmask Hbin. unfold App.handleApplyDamage.
  rewrite Horig, Hmanual, Hmask. split.
  - intros Hzero. apply paintedCount_zero in Hzero. rewrite Hzero.
    split; [reflexivity|]. intros Hnone. simpl.
    unfold App.handleReconstruct. rewrite Hnone.
    destruct (App.damagedTensor st); reflexivity.
  - intros Hpainted.
    assert (Hcount : App.paintedCount paint <> 0).
    { intros Hzero. apply paintedCount_zero in Hzero.
      apply Exists_exists in Hpainted. destruct Hpainted as (v & Hin & ->).
      pose proof (proj1 (Forall_forall _ _) Hzero 1 Hin) as Hone. discriminate Hone. }
    apply Nat.eqb_neq in Hcount. rewrite Hcount.
    exists (App.invert paint). split; [reflexivity|].
    split; [reflexivity|]. split; [reflexivity|].
    split; [apply invert_length|].
    intros i v Hv. rewrite (invert_lookup paint i v Hv). f_equal.
    destruct (Forall_lookup_1 _ _ _ _ Hbin Hv) as [->| ->]; reflexivity.
Qed.

Lemma manual_mask_complement_witness :
  exists known,
    App.handleApplyDamage (fun _ => zero)
      (App.mkState (Some white_1x2) (Some [0; 1]) None None None [] zero 0%Z
                   true zero zero zero 1000%Z tol_default)
    = (App.apply_known
         (App.mkState (Some white_1x2) (Some [0; 1]) None None None [] zero 0%Z
                      true zero zero zero 1000%Z tol_default)
         white_1x2 known, None) /\
    known !! 0 = Some 1 /\ known !! 1 = Some 0.
Proof.
  destruct (proj2 (manual_mask_complement (fun _ => zero)
                     (App.mkState (Some white_1x2) (Some [0; 1]) None None None [] zero 0%Z
                                  true zero zero zero 1000%Z tol_default)
                     white_1x2 [0; 1] eq_refl eq_refl eq_refl
                     ltac:(repeat (constructor; [lia|]); constructor))
                  ltac:(right; left; reflexivity))
    as (known & Heq & _ & _ & _ & Hcompl).
  exists known. split; [exact Heq|].
  split; [exact (Hcompl 0 0 eq_refl)|exact (Hcompl 1 1 eq_refl)].
Defined.

(* ------------------------------------------------------------------ *)
(** ** The error the engine reports *)
(* ------------------------------------------------------------------ *)

(** Against a sample 0 the squared difference is the square of the other
    sample, in floating point too. *)
Lemma sq_diff_zero (r : num) : fmul (fsub zero r) (fsub zero r) = fmul r r.
Proof.
  destruct r as [s|s| |s m e]; unfold fmul, fsub, zero, SFmul, SFsub;
    try destruct s; reflexivity.
Qed.

Lemma setF_lookup_cases (a : Float32Array) q p v w :
  setF a q v !! p = Some w ->
  (q = p /\ w = fround v) \/ (q <> p /\ a !! p = Some w).
Proof.
  intros Hl. destruct (decide (q = p)) as [->|Hne].
  - left. split; [reflexivity|]. exact (setF_lookup_eq a p v w Hl).
  - right. split; [exact Hne|]. rewrite setF_lookup_ne in Hl by exact Hne. exact Hl.
Qed.

(** After the first [n] pixels of [makeDamagedView], the three samples of an
    unknown pixel below [n] are 0. *)
Lemma damaged_prefix_zero (known : Uint8Array) (d0 : Float32Array) n i c v :
  i < n -> known !! i = Some 0 -> c < 3 ->
  for_range n
    (fun j d =>
       if is_at known j 0
       then setF (setF (setF d (j * 3 + 0) zero) (j * 3 + 1) zero) (j * 3 + 2) zero
       else d) d0 !! (i * 3 + c) = Some v ->
  v = zero.
Proof.
  intros Hi Hk Hc. induction n as [|n IH]; [lia|].
  rewrite for_range_S. unfold is_at at 1.
  destruct (bool_decide_reflect (known !! n = Some 0)) as [Hn|Hn].
  - intros Hl.
    apply setF_lookup_cases in Hl. destruct Hl as [[_ ->]|[Hne2 Hl]]; [reflexivity|].
    apply setF_lookup_cases in Hl. destruct Hl as [[_ ->]|[Hne1 Hl]]; [reflexivity|].
    apply setF_lookup_cases in Hl. destruct Hl as [[_ ->]|[Hne0 Hl]]; [reflexivity|].
    apply IH; [lia|exact Hl].
  - intros Hl. apply IH; [|exact Hl].
    destruct (decide (i = n)) as [->|Hne]; [contradiction|lia].
Qed.

Lemma damaged_unknown_zero original known i c v :
  i < H original * W original -> known !! i = Some 0 -> c < 3 ->
  data (makeDamagedView original known) !! (i * 3 + c) = Some v -> v = zero.
Proof. intros Hi Hk Hc. unfold makeDamagedView. simpl. apply damaged_prefix_zero; assumption. Qed.

Lemma damaged_view_zeroed original known :
  C original = 3 -> zeroed_unknown (makeDamagedView original known) known.
Proof.
  intros HC i c v Hi Hk Hc. simpl in Hi, Hc |- *. rewrite HC in *.
  apply damaged_unknown_zero; assumption.
Qed.

(** The error reported when the damaged tensor holds 0 at the unknown
    pixels. *)
Lemma rmse_of_zeroed damaged known lambda beta maxIter tol :
  zeroed_unknown damaged known ->
  let r := inpaintGaussSeidel damaged known lambda beta maxIter tol in
  rmse r = rms_unknown (reconstructed r) known.
Proof.
  intros Hzero. cbv zeta.
  destruct (inpaint_shape damaged known lambda beta maxIter tol)
    as (j & iter' & _ & Heq & _).
  rewrite Heq. cbv zeta. simpl rmse. simpl reconstructed.
  rewrite rmseOnMissing_spec. unfold rmse_spec, rms_unknown.
  change (unknown_terms {| H := H damaged; W := W damaged; C := C damaged;
                           data := U_after damaged known j |} known)
    with (unknown_terms damaged known).
  simpl C. simpl data.
  assert (Hmap :
    map (sq_diff damaged
           {| H := H damaged; W := W damaged; C := C damaged;
              data := U_after damaged known j |})
        (unknown_terms damaged known)
    = map (fun ic => let v := getF (U_after damaged known j)
                                   (fst ic * C damaged + snd ic) in
                     fmul v v)
          (unknown_terms damaged known)).
  { apply map_ext_in. intros [i c] Hin. apply elem_unknown_terms in Hin.
    destruct Hin as (Hi & Hk & Hc).
    unfold sq_diff. cbv zeta. simpl fst. simpl snd. simpl data.
    destruct (data damaged !! (i * C damaged + c)) as [v|] eqn:Hd.
    - assert (Hg : getF (data damaged) (i * C damaged + c) = zero).
      { unfold getF. rewrite Hd. exact (Hzero i c v Hi Hk Hc Hd). }
      rewrite Hg. apply sq_diff_zero.
    - assert (Hg : getF (data damaged) (i * C damaged + c) = nan).
      { unfold getF. rewrite Hd. reflexivity. }
      assert (Hr : getF (U_after damaged known j) (i * C damaged + c) = nan).
      { unfold getF. apply lookup_ge_None in Hd.
        rewrite (proj2 (lookup_ge_None (U_after damaged known j) (i * C damaged + c)));
          [reflexivity|].
        unfold U_after. rewrite buffer_after_length. exact Hd. }
      rewrite Hg, Hr. reflexivity. }
  rewrite Hmap.
  destruct (unknown_terms damaged known); reflexivity.
Qed.

Lemma rmse_field damaged known lambda beta maxIter tol :
  let r := inpaintGaussSeidel damaged known lambda beta maxIter tol in
  rmse r = rmseOnMissing damaged (reconstructed r) known.
Proof.
  cbv zeta. unfold inpaintGaussSeidel.
  destruct (iterate damaged known tol (Z.to_nat maxIter) 0%Z (data damaged) [])
    as [[iter Uf] res].
  reflexivity.
Qed.

(** C10.  The engine reports [rmseOnMissing] with the damaged tensor as the
    baseline.  The damaged view of a three-channel image holds 0 at every
    channel of every unknown pixel, and for such a damaged tensor the value
    reported is the square root of the mean of the squared reconstructed
    samples over the unknown (pixel, channel) pairs, and 0 when no pixel is
    unknown. *)
Theorem rmse_reported_is_rms_of_output damaged known lambda beta maxIter tol :
  let r := inpaintGaussSeidel damaged known lambda beta maxIter tol in
  rmse r = rmseOnMissing damaged (reconstructed r) known
  /\ (zeroed_unknown damaged known -> rmse r = rms_unknown (reconstructed r) known)
  /\ (forall original,
        C original = 3 ->
        damaged = makeDamagedView original known ->
        zeroed_unknown damaged known /\
        rmse r = rms_unknown (reconstructed r) known)
  /\ ((forall i, i < H damaged * W damaged -> known !! i <> Some 0) -> rmse r = zero).
Proof.
  cbv zeta. split; [apply rmse_field|]. split; [apply rmse_of_zeroed|]. split.
  - intros original HC ->.
    split; [apply damaged_view_zeroed; exact HC|].
    apply rmse_of_zeroed, damaged_view_zeroed. exact HC.
  - intros Hk.
    rewrite (rmse_field damaged known lambda beta maxIter tol), rmseOnMissing_spec.
    unfold rmse_spec. rewrite unknown_terms_none by exact Hk. reflexivity.
Qed.

Lemma rmse_reported_is_rms_of_output_witness :
  let r := inpaintGaussSeidel (makeDamagedView white_1x2 [1; 0]) [1; 0] zero zero
                              1 tol_default in
  rmse r = dyadic 5 (-4).
Proof.
  exact (proj2 (proj1 (proj2 (proj2
           (rmse_reported_is_rms_of_output (makeDamagedView white_1x2 [1; 0]) [1; 0]
              zero zero 1 tol_default))) white_1x2 eq_refl eq_refl)).
Defined.

(** An instance of C9 on the 1 x 2 image: without unknown pixel the metric
    is 0. *)
Lemma rmseOnMissing_mean_square_witness :
  unknown_terms white_1x2 [1; 1] = [] /\
  rmseOnMissing white_1x2 half_damaged [1; 1] = zero.
Proof.
  apply (proj1 (proj2 (rmseOnMissing_mean_square white_1x2 half_damaged [1; 1]))).
  intros i Hi. simpl in Hi.
  destruct i as [|[|i]]; [discriminate|discriminate|lia].
Defined.

(* ------------------------------------------------------------------ *)
(** ** Strided buffers *)
(* ------------------------------------------------------------------ *)

(** What a lookup sees after a slot was handled: the new value where the
    buffer has the slot, nothing where it has not. *)
Lemma lookup_overwritten {A B : Type} (d : list A) (p : nat) (v : B) :
  (fun _ => v) <$> d !! p = if decide (p < length d) then Some v else None.
Proof.
  destruct (decide (p < length d)) as [Hlt|Hge].
  - destruct (lookup_lt_is_Some_2 d p Hlt) as [x ->]. reflexivity.
  - rewrite (proj2 (lookup_ge_None d p)) by lia. reflexivity.
Qed.

Lemma div_stride (s i k : nat) : k < s -> (i * s + k) / s = i /\ (i * s + k) mod s = k.
Proof.
  intros Hk. split.
  - symmetry. apply (Nat.div_unique (i * s + k) s i k); lia.
  - symmetry. apply (Nat.mod_unique (i * s + k) s i k); lia.
Qed.

Lemma stride_decompose (s p : nat) : 0 < s -> p = p / s * s + p mod s /\ p mod s < s.
Proof.
  intros Hs. split.
  - rewrite Nat.mul_comm. apply Nat.div_mod_eq.
  - apply Nat.mod_upper_bound. lia.
Qed.

(** Three consecutive stores at pixel [i] of a three-channel buffer. *)
Lemma insert3_lookup {A : Type} (d : list A) (i p : nat) (a b c : A) :
  <[i * 3 + 2 := c]> (<[i * 3 + 1 := b]> (<[i * 3 + 0 := a]> d)) !! p
  = if decide (p / 3 = i)
    then (fun _ => nth (p mod 3) [a; b; c] a) <$> d !! p
    else d !! p.
Proof.
  destruct (stride_decompose 3 p ltac:(lia)) as [Hp Hmod].
  rewrite !list_lookup_insert, !length_insert, lookup_overwritten.
  destruct (decide (p / 3 = i)) as [<-|Hne].
  - destruct (p mod 3) as [|[|[|k]]] eqn:Hk; [| | |lia]; simpl nth;
      repeat (destruct (decide _) as [?|?]); try reflexivity; try lia;
      apply lookup_ge_None; lia.
  - repeat (destruct (decide _) as [[? ?]|?]); try reflexivity;
      exfalso; apply Hne; subst p;
      [apply (proj1 (div_stride 3 i 2 ltac:(lia)))
      |apply (proj1 (div_stride 3 i 1 ltac:(lia)))
      |apply (proj1 (div_stride 3 i 0 ltac:(lia)))].
Qed.

(** Four consecutive stores at pixel [i] of an RGBA buffer. *)
Lemma insert4_lookup {A : Type} (d : list A) (i p : nat) (a b c e : A) :
  <[i * 4 + 3 := e]> (<[i * 4 + 2 := c]> (<[i * 4 + 1 := b]> (<[i * 4 + 0 := a]> d))) !! p
  = if decide (p / 4 = i)
    then (fun _ => nth (p mod 4) [a; b; c; e] a) <$> d !! p
    else d !! p.
Proof.
  destruct (stride_decompose 4 p ltac:(lia)) as [Hp Hmod].
  rewrite !list_lookup_insert, !length_insert, lookup_overwritten.
  destruct (decide (p / 4 = i)) as [<-|Hne].
  - destruct (p mod 4) as [|[|[|[|k]]]] eqn:Hk; [| | | |lia]; simpl nth;
      repeat (destruct (decide _) as [?|?]); try reflexivity; try lia;
      apply lookup_ge_None; lia.
  - repeat (destruct (decide _) as [[? ?]|?]); try reflexivity;
      exfalso; apply Hne; subst p;
      [apply (proj1 (div_stride 4 i 3 ltac:(lia)))
      |apply (proj1 (div_stride 4 i 2 ltac:(lia)))
      |apply (proj1 (div_stride 4 i 1 ltac:(lia)))
      |apply (proj1 (div_stride 4 i 0 ltac:(lia)))].
Qed.

(* ------------------------------------------------------------------ *)
(** ** makeDamagedView *)
(* ------------------------------------------------------------------ *)

Lemma nth_const3 {A : Type} (k : nat) (z : A) : nth k [z; z; z] z = z.
Proof. destruct k as [|[|[|[|k]]]]; reflexivity. Qed.

(** The buffer after the first [n] pixels of [makeDamagedView]. *)
Lemma damaged_prefix_lookup (known : Uint8Array) (d0 : Float32Array) n p :
  for_range n
    (fun j d =>
       if is_at known j 0
       then setF (setF (setF d (j * 3 + 0) zero) (j * 3 + 1) zero) (j * 3 + 2) zero
       else d) d0 !! p
  = if (p / 3 <? n) && is_at known (p / 3) 0
    then (fun _ => zero) <$> d0 !! p
    else d0 !! p.
Proof.
  induction n as [|n IH]; [reflexivity|].
  rewrite for_range_S.
  destruct (is_at known n 0) eqn:Hn.
  - unfold setF in IH |- *. rewrite insert3_lookup, nth_const3, IH, fround_zero.
    destruct (decide (p / 3 = n)) as [Heq|Hne].
    + rewrite Heq, Hn.
      rewrite (proj2 (Nat.ltb_ge n n)) by lia.
      rewrite (proj2 (Nat.ltb_lt n (S n))) by lia. reflexivity.
    + destruct (Nat.ltb_spec (p / 3) n) as [Hlt|Hge].
      * rewrite (proj2 (Nat.ltb_lt (p / 3) (S n))) by lia. reflexivity.
      * rewrite (proj2 (Nat.ltb_ge (p / 3) (S n))) by lia. reflexivity.
  - rewrite IH.
    destruct (Nat.ltb_spec (p / 3) n) as [Hlt|Hge].
    + rewrite (proj2 (Nat.ltb_lt (p / 3) (S n))) by lia. reflexivity.
    + destruct (decide (p / 3 = n)) as [Heq|Hne].
      * rewrite Heq, Hn, !andb_false_r. reflexivity.
      * rewrite (proj2 (Nat.ltb_ge (p / 3) (S n))) by lia. reflexivity.
Qed.

Lemma damaged_view_lookup original known p :
  data (makeDamagedView original known) !! p
  = if (p / 3 <? H original * W original) && is_at known (p / 3) 0
    then (fun _ => zero) <$> data original !! p
    else data original !! p.
Proof. unfold makeDamagedView. simpl. apply damaged_prefix_lookup. Qed.

Lemma damaged_view_length original known :
  length (data (makeDamagedView original known)) = length (data original).
Proof.
  unfold makeDamagedView. simpl.
  apply (for_range_inv (fun d => length d = length (data original))); [reflexivity|].
  intros i d _ Hd. destruct (is_at known i 0); [|exact Hd].
  rewrite !setF_length. exact Hd.
Qed.

Lemma damaged_view_f32 original known :
  Forall is_f32 (data original) -> Forall is_f32 (data (makeDamagedView original known)).
Proof.
  intros Hf. apply Forall_lookup. intros p v Hv.
  rewrite damaged_view_lookup in Hv.
  destruct ((p / 3 <? H original * W original) && is_at known (p / 3) 0).
  - destruct (data original !! p); [|discriminate]. simpl in Hv.
    inversion Hv. reflexivity.
  - exact (Forall_lookup_1 _ _ _ _ Hf Hv).
Qed.

(** X1.  [makeDamagedView] keeps the dimensions and the length of the buffer;
    sample [k < 3] of pixel [i] becomes 0 when the pixel is inside the raster
    and its flag is 0, and keeps the source value otherwise: flag 1, any other
    flag, no flag (a mask shorter than the image), or a pixel beyond
    [H * W]. *)
Theorem makeDamagedView_samples original known :
  H (makeDamagedView original known) = H original /\
  W (makeDamagedView original known) = W original /\
  C (makeDamagedView original known) = C original /\
  length (data (makeDamagedView original known)) = length (data original) /\
  forall i k, k < 3 ->
    data (makeDamagedView original known) !! (i * 3 + k)
    = if (i <? H original * W original) && is_at known i 0
      then (fun _ => zero) <$> data original !! (i * 3 + k)
      else data original !! (i * 3 + k).
Proof.
  split; [reflexivity|]. split; [reflexivity|]. split; [reflexivity|].
  split; [apply damaged_view_length|].
  intros i k Hk. rewrite damaged_view_lookup.
  rewrite (proj1 (div_stride 3 i k Hk)). reflexivity.
Qed.

Lemma makeDamagedView_samples_witness :
  data (makeDamagedView white_1x2 [1; 0]) !! (1 * 3 + 2) = Some zero.
Proof.
  exact (proj2 (proj2 (proj2 (proj2 (makeDamagedView_samples white_1x2 [1; 0]))))
           1 2 ltac:(lia)).
Defined.

Lemma tensor_eq (a b : Tensor) :
  H a = H b -> W a = W b -> C a = C b -> data a = data b -> a = b.
Proof. destruct a, b. simpl. intros -> -> -> ->. reflexivity. Qed.

(** X2.  Damaging is idempotent, and a mask that flags no pixel of the raster
    with 0 leaves the tensor as it is. *)
Theorem makeDamagedView_idempotent original known :
  makeDamagedView (makeDamagedView original known) known = makeDamagedView original known
  /\ ((forall i, i < H original * W original -> known !! i <> Some 0) ->
      makeDamagedView original known = original).
Proof.
  split.
  - assert (Hdata : data (makeDamagedView (makeDamagedView original known) known)
                    = data (makeDamagedView original known)).
    { apply list_eq. intros p. rewrite (damaged_view_lookup (makeDamagedView _ _)).
      simpl H. simpl W.
      destruct ((p / 3 <? H original * W original) && is_at known (p / 3) 0) eqn:Hc;
        [|reflexivity].
      rewrite damaged_view_lookup, Hc.
      destruct (data original !! p); reflexivity. }
    apply tensor_eq; [reflexivity..|exact Hdata].
  - intros Hk.
    assert (Hdata : data (makeDamagedView original known) = data original).
    { apply list_eq. intros p. rewrite damaged_view_lookup.
      destruct (Nat.ltb_spec (p / 3) (H original * W original)) as [Hlt|Hge];
        [|reflexivity].
      unfold is_at. rewrite bool_decide_eq_false_2 by (apply Hk; exact Hlt).
      reflexivity. }
    apply tensor_eq; [reflexivity..|exact Hdata].
Qed.

Lemma makeDamagedView_idempotent_witness : makeDamagedView white_1x2 [1; 1] = white_1x2.
Proof.
  apply (proj2 (makeDamagedView_idempotent white_1x2 [1; 1])).
  intros i Hi. simpl in Hi. destruct i as [|[|i]]; [discriminate|discriminate|lia].
Defined.

(* ------------------------------------------------------------------ *)
(** ** rgbaToTensor and tensorToImageData *)
(* ------------------------------------------------------------------ *)

Lemma num_eqb_eq (x y : num) : JSMath.num_eqb x y = true -> x = y.
Proof.
  destruct x as [a|a| |a m e], y as [b|b| |b m' e']; simpl; try discriminate.
  - intros Hab. apply eqb_prop in Hab. congruence.
  - intros Hab. apply eqb_prop in Hab. congruence.
  - reflexivity.
  - intros Hall. apply andb_prop in Hall. destruct Hall as [Hall He].
    apply andb_prop in Hall. destruct Hall as [Hs Hm].
    apply eqb_prop in Hs. apply Pos.eqb_eq in Hm. apply Z.eqb_eq in He. congruence.
Qed.

(** Every byte passes the check: 256 cases, by computation. *)
Lemma all_bytes_round_trip : forallb byte_round_trips (seq 0 256) = true.
Proof. vm_compute. reflexivity. Qed.

Lemma byte_facts (b : nat) :
  b <= 255 ->
  let v := fround (fdiv (of_nat b) (of_Z 255)) in
  is_f32 v /\ unit_sample v /\ JSMath.to_uint8_clamp (to_level v) = b.
Proof.
  intros Hb. cbv zeta.
  assert (Hcheck : byte_round_trips b = true).
  { apply (proj1 (forallb_forall _ _) all_bytes_round_trip). apply in_seq. lia. }
  unfold byte_round_trips in Hcheck. cbv zeta in Hcheck.
  apply andb_prop in Hcheck. destruct Hcheck as [Hcheck Hback].
  apply andb_prop in Hcheck. destruct Hcheck as [Hcheck Hle1].
  apply andb_prop in Hcheck. destruct Hcheck as [Hf32 Hle0].
  split; [exact (num_eqb_eq _ _ Hf32)|].
  split; [split; assumption|]. apply Nat.eqb_eq. exact Hback.
Qed.

(** The buffer after the first [n] pixels of [rgbaToTensor]. *)
Lemma rgba_prefix_lookup (rgba : list nat) (d0 : Float32Array) n p :
  for_range n
    (fun i d =>
       setF (setF (setF d
         (i * 3 + 0) (fdiv (getB rgba (i * 4 + 0)) (of_Z 255)))
         (i * 3 + 1) (fdiv (getB rgba (i * 4 + 1)) (of_Z 255)))
         (i * 3 + 2) (fdiv (getB rgba (i * 4 + 2)) (of_Z 255))) d0 !! p
  = if p / 3 <? n
    then (fun _ => fround (fdiv (getB rgba (p / 3 * 4 + p mod 3)) (of_Z 255))) <$> d0 !! p
    else d0 !! p.
Proof.
  destruct (stride_decompose 3 p ltac:(lia)) as [_ Hmod].
  induction n as [|n IH]; [reflexivity|].
  rewrite for_range_S. unfold setF in IH |- *. rewrite insert3_lookup, IH.
  destruct (decide (p / 3 = n)) as [Heq|Hne].
  - rewrite Heq.
    rewrite (proj2 (Nat.ltb_ge n n)) by lia.
    rewrite (proj2 (Nat.ltb_lt n (S n))) by lia.
    destruct (p mod 3) as [|[|[|k]]]; [reflexivity..|lia].
  - destruct (Nat.ltb_spec (p / 3) n) as [Hlt|Hge].
    + rewrite (proj2 (Nat.ltb_lt (p / 3) (S n))) by lia. reflexivity.
    + rewrite (proj2 (Nat.ltb_ge (p / 3) (S n))) by lia. reflexivity.
Qed.

Lemma rgbaToTensor_lookup img p :
  data (rgbaToTensor img) !! p
  = if p / 3 <? ImageData.height img * ImageData.width img
    then Some (fround (fdiv (getB (ImageData.data img) (p / 3 * 4 + p mod 3)) (of_Z 255)))
    else None.
Proof.
  destruct (stride_decompose 3 p ltac:(lia)) as [Hp Hmod].
  unfold rgbaToTensor. cbv zeta. cbn [data]. rewrite rgba_prefix_lookup.
  destruct (Nat.ltb_spec (p / 3) (ImageData.height img * ImageData.width img)) as [Hlt|Hge].
  - rewrite lookup_replicate_2 by lia. reflexivity.
  - apply lookup_replicate_None. lia.
Qed.

Lemma rgbaToTensor_length img :
  length (data (rgbaToTensor img)) = ImageData.height img * ImageData.width img * 3.
Proof.
  unfold rgbaToTensor. cbv zeta. cbn [data].
  apply (for_range_inv
           (fun d => length d = ImageData.height img * ImageData.width img * 3)).
  - apply length_replicate.
  - intros i d _ Hd. rewrite !setF_length. exact Hd.
Qed.

Lemma getB_byte (rgba : list nat) j b : rgba !! j = Some b -> getB rgba j = of_nat b.
Proof. intros Hb. unfold getB. rewrite Hb. reflexivity. Qed.

(** A sample of the tensor of a well-formed image is a normalised byte. *)
Lemma rgbaToTensor_sample_byte img p v :
  well_formed_image img ->
  data (rgbaToTensor img) !! p = Some v ->
  exists b, ImageData.data img !! (p / 3 * 4 + p mod 3) = Some b /\ b <= 255 /\
            v = fround (fdiv (of_nat b) (of_Z 255)).
Proof.
  intros (Hw & Hh & Hlen & Hbytes) Hv.
  destruct (stride_decompose 3 p ltac:(lia)) as [Hp Hmod].
  rewrite rgbaToTensor_lookup in Hv.
  destruct (Nat.ltb_spec (p / 3) (ImageData.height img * ImageData.width img))
    as [Hlt|Hge]; [|discriminate].
  destruct (lookup_lt_is_Some_2 (ImageData.data img) (p / 3 * 4 + p mod 3)) as [b Hb];
    [lia|].
  exists b. split; [exact Hb|]. split; [exact (Forall_lookup_1 _ _ _ _ Hbytes Hb)|].
  rewrite (getB_byte _ _ _ Hb) in Hv. congruence.
Qed.

Lemma rgbaToTensor_lookup_byte img i k b :
  i < ImageData.height img * ImageData.width img -> k < 3 ->
  ImageData.data img !! (i * 4 + k) = Some b ->
  data (rgbaToTensor img) !! (i * 3 + k) = Some (fround (fdiv (of_nat b) (of_Z 255))).
Proof.
  intros Hi Hk Hb. rewrite rgbaToTensor_lookup.
  destruct (div_stride 3 i k Hk) as [-> ->].
  rewrite (proj2 (Nat.ltb_lt _ _) Hi), (getB_byte _ _ _ Hb). reflexivity.
Qed.

Lemma rgbaToTensor_f32 img :
  well_formed_image img -> Forall is_f32 (data (rgbaToTensor img)).
Proof.
  intros Hwf. apply Forall_lookup. intros p v Hv.
  destruct (rgbaToTensor_sample_byte img p v Hwf Hv) as (b & _ & Hb & ->).
  apply (byte_facts b Hb).
Qed.

(** X3.  The tensor of a well-formed image has the image's dimensions, three
    channels and [H * W * 3] samples; sample [k < 3] of pixel [i] is the byte
    of that channel divided by 255 in single precision (the alpha byte is
    dropped), a binary32 value between 0 and 1. *)
Theorem rgbaToTensor_normalised img :
  well_formed_image img ->
  H (rgbaToTensor img) = ImageData.height img /\
  W (rgbaToTensor img) = ImageData.width img /\
  C (rgbaToTensor img) = 3 /\
  length (data (rgbaToTensor img)) = ImageData.height img * ImageData.width img * 3 /\
  Forall is_f32 (data (rgbaToTensor img)) /\
  Forall unit_sample (data (rgbaToTensor img)) /\
  forall i k b, i < ImageData.height img * ImageData.width img -> k < 3 ->
    ImageData.data img !! (i * 4 + k) = Some b ->
    data (rgbaToTensor img) !! (i * 3 + k) = Some (fround (fdiv (of_nat b) (of_Z 255))).
Proof.
  intros Hwf.
  split; [reflexivity|]. split; [reflexivity|]. split; [reflexivity|].
  split; [apply rgbaToTensor_length|].
  split; [|split].
  - apply rgbaToTensor_f32. exact Hwf.
  - apply Forall_lookup. intros p v Hv.
    destruct (rgbaToTensor_sample_byte img p v Hwf Hv) as (b & _ & Hb & ->).
    apply (byte_facts b Hb).
  - apply rgbaToTensor_lookup_byte.
Qed.

Lemma rgbaToTensor_normalised_witness :
  data (rgbaToTensor magenta_pixel) !! (0 * 3 + 2)
  = Some (fround (fdiv (of_nat 255) (of_Z 255))).
Proof.
  refine (proj2 (proj2 (proj2 (proj2 (proj2 (proj2
            (rgbaToTensor_normalised magenta_pixel _))))))
            0 2 255 ltac:(simpl; lia) ltac:(lia) eq_refl).
  split; [simpl; lia|]. split; [simpl; lia|]. split; [reflexivity|].
  repeat (constructor; [lia|]). constructor.
Defined.

(** The bytes after the first [n] pixels of [tensorToImageData]. *)
Lemma image_prefix_lookup (samples : Float32Array) (d0 : list nat) n p :
  for_range n
    (fun i d =>
       setB (setB (setB (setB d
         (i * 4 + 0) (to_level (getF samples (i * 3 + 0))))
         (i * 4 + 1) (to_level (getF samples (i * 3 + 1))))
         (i * 4 + 2) (to_level (getF samples (i * 3 + 2))))
         (i * 4 + 3) (of_Z 255)) d0 !! p
  = if p / 4 <? n
    then (fun _ => if p mod 4 =? 3 then 255
                   else JSMath.to_uint8_clamp
                          (to_level (getF samples (p / 4 * 3 + p mod 4)))) <$> d0 !! p
    else d0 !! p.
Proof.
  destruct (stride_decompose 4 p ltac:(lia)) as [_ Hmod].
  induction n as [|n IH]; [reflexivity|].
  rewrite for_range_S. unfold setB in IH |- *. rewrite insert4_lookup, IH.
  destruct (decide (p / 4 = n)) as [Heq|Hne].
  - rewrite Heq.
    rewrite (proj2 (Nat.ltb_ge n n)) by lia.
    rewrite (proj2 (Nat.ltb_lt n (S n))) by lia.
    destruct (p mod 4) as [|[|[|[|k]]]]; [reflexivity..|lia].
  - destruct (Nat.ltb_spec (p / 4) n) as [Hlt|Hge].
    + rewrite (proj2 (Nat.ltb_lt (p / 4) (S n))) by lia. reflexivity.
    + rewrite (proj2 (Nat.ltb_ge (p / 4) (S n))) by lia. reflexivity.
Qed.

Lemma to_uint8_clamp_le (x : num) : JSMath.to_uint8_clamp x <= 255.
Proof.
  destruct x as [s|s| |s m e]; simpl; try lia.
  - destruct s; lia.
  - destruct s; [lia|]. lia.
Qed.

(** The bytes of the image a tensor is shown as. *)
Lemma tensorToImageData_lookup tensor img p :
  tensorToImageData tensor = Some img ->
  ImageData.width img = W tensor /\ ImageData.height img = H tensor /\
  ImageData.data img !! p
  = if p / 4 <? H tensor * W tensor
    then Some (if p mod 4 =? 3 then 255
               else JSMath.to_uint8_clamp
                      (to_level (getF (data tensor) (p / 4 * 3 + p mod 4))))
    else None.
Proof.
  unfold tensorToImageData.
  destruct ((W tensor =? 0) || (H tensor =? 0)); [discriminate|].
  intros Himg. inversion Himg; subst img; clear Himg. cbn [ImageData.width
    ImageData.height ImageData.data].
  split; [reflexivity|]. split; [reflexivity|].
  destruct (stride_decompose 4 p ltac:(lia)) as [Hp Hmod].
  rewrite image_prefix_lookup.
  destruct (Nat.ltb_spec (p / 4) (H tensor * W tensor)) as [Hlt|Hge].
  - rewrite lookup_replicate_2 by lia. reflexivity.
  - apply lookup_replicate_None. lia.
Qed.

Lemma tensorToImageData_length tensor img :
  tensorToImageData tensor = Some img ->
  length (ImageData.data img) = 4 * W tensor * H tensor.
Proof.
  unfold tensorToImageData.
  destruct ((W tensor =? 0) || (H tensor =? 0)); [discriminate|].
  intros Himg. inversion Himg; subst img; clear Himg. cbn [ImageData.data].
  apply (for_range_inv (fun d => length d = 4 * W tensor * H tensor)).
  - apply length_replicate.
  - intros i d _ Hd. unfold setB. rewrite !length_insert. exact Hd.
Qed.

Lemma tensorToImageData_None tensor :
  tensorToImageData tensor = None <-> W tensor = 0 \/ H tensor = 0.
Proof.
  unfold tensorToImageData.
  destruct (Nat.eqb_spec (W tensor) 0) as [Hw|Hw];
    destruct (Nat.eqb_spec (H tensor) 0) as [Hh|Hh]; simpl.
  - split; [intros _; left; exact Hw|reflexivity].
  - split; [intros _; left; exact Hw|reflexivity].
  - split; [intros _; right; exact Hh|reflexivity].
  - split; [discriminate|intros [Hz|Hz]; contradiction].
Qed.

(** X4.  [tensorToImageData] fails exactly when a dimension is 0.  Otherwise
    the image has the tensor's dimensions and [4 * W * H] bytes, none above
    255; every alpha byte is 255, and the byte of sample [k < 3] of pixel [i]
    is 0 where the buffer has no such sample or holds NaN. *)
Theorem tensorToImageData_bytes tensor :
  (tensorToImageData tensor = None <-> W tensor = 0 \/ H tensor = 0) /\
  forall img, tensorToImageData tensor = Some img ->
    ImageData.width img = W tensor /\
    ImageData.height img = H tensor /\
    length (ImageData.data img) = 4 * W tensor * H tensor /\
    Forall (fun b => b <= 255) (ImageData.data img) /\
    forall i, i < H tensor * W tensor ->
      ImageData.data img !! (i * 4 + 3) = Some 255 /\
      forall k, k < 3 ->
        ImageData.data img !! (i * 4 + k)
        = Some (JSMath.to_uint8_clamp (to_level (getF (data tensor) (i * 3 + k)))) /\
        (data tensor !! (i * 3 + k) = None \/ data tensor !! (i * 3 + k) = Some nan ->
         ImageData.data img !! (i * 4 + k) = Some 0).
Proof.
  split; [apply tensorToImageData_None|].
  intros img Himg.
    destruct (tensorToImageData_lookup tensor img 0 Himg) as (Hw & Hh & _).
    split; [exact Hw|]. split; [exact Hh|].
    split; [exact (tensorToImageData_length tensor img Himg)|].
    split.
    + apply Forall_lookup. intros p b Hb.
      rewrite (proj2 (proj2 (tensorToImageData_lookup tensor img p Himg))) in Hb.
      destruct (p / 4 <? H tensor * W tensor); [|discriminate].
      destruct (p mod 4 =? 3); injection Hb as <-;
        [apply Nat.le_refl|apply to_uint8_clamp_le].
    + intros i Hi.
      assert (Hat : forall k, k < 4 ->
                ImageData.data img !! (i * 4 + k)
                = Some (if k =? 3 then 255
                        else JSMath.to_uint8_clamp
                               (to_level (getF (data tensor) (i * 3 + k))))).
      { intros k Hk.
        rewrite (proj2 (proj2 (tensorToImageData_lookup tensor img (i * 4 + k) Himg))).
        destruct (div_stride 4 i k Hk) as [-> ->].
        rewrite (proj2 (Nat.ltb_lt _ _) Hi). reflexivity. }
      split; [exact (Hat 3 ltac:(lia))|].
      intros k Hk.
      assert (Hk3 : (k =? 3) = false) by (apply Nat.eqb_neq; lia).
      pose proof (Hat k ltac:(lia)) as Hbyte. rewrite Hk3 in Hbyte.
      split; [exact Hbyte|].
      intros Hmissing. rewrite Hbyte. unfold getF.
      destruct Hmissing as [-> | ->]; reflexivity.
Qed.

Lemma tensorToImageData_bytes_witness :
  exists img, tensorToImageData (mkTensor 1 1 3 [one; nan]) = Some img /\
              ImageData.data img !! (0 * 4 + 3) = Some 255 /\
              ImageData.data img !! (0 * 4 + 1) = Some 0 /\
              ImageData.data img !! (0 * 4 + 2) = Some 0.
Proof.
  destruct (tensorToImageData (mkTensor 1 1 3 [one; nan])) as [img|] eqn:Himg;
    [|discriminate Himg].
  exists img. split; [reflexivity|].
  destruct (proj2 (tensorToImageData_bytes (mkTensor 1 1 3 [one; nan])) img Himg)
    as (_ & _ & _ & _ & Hpix).
  destruct (Hpix 0 ltac:(simpl; lia)) as [Halpha Hrgb].
  split; [exact Halpha|]. split.
  - exact (proj2 (Hrgb 1 ltac:(lia)) (or_intror eq_refl)).
  - exact (proj2 (Hrgb 2 ltac:(lia)) (or_introl eq_refl)).
Defined.

(** X5.  Decoding a well-formed image and encoding the tensor again returns
    the image with every alpha byte set to 255: the three colour bytes of
    every pixel survive the normalisation to single-precision samples. *)
Theorem image_round_trip img :
  well_formed_image img ->
  tensorToImageData (rgbaToTensor img)
  = Some (ImageData.mk (ImageData.width img) (ImageData.height img)
                       (opaque (ImageData.data img))).
Proof.
  intros Hwf. pose proof Hwf as (Hw & Hh & Hlen & Hbytes).
  destruct (tensorToImageData (rgbaToTensor img)) as [out|] eqn:Hout.
  2: { apply tensorToImageData_None in Hout. simpl in Hout. lia. }
  f_equal.
  destruct (tensorToImageData_lookup (rgbaToTensor img) out 0 Hout) as (Hwo & Hho & _).
  pose proof (fun p => proj2 (proj2 (tensorToImageData_lookup (rgbaToTensor img) out p Hout)))
    as Hlookup.
  destruct out as [wo ho dat].
  cbn [ImageData.width ImageData.height ImageData.data H W rgbaToTensor] in Hwo, Hho, Hlookup.
  subst wo ho. f_equal.
  apply list_eq. intros p. rewrite Hlookup.
  unfold opaque. rewrite list_lookup_imap.
  destruct (stride_decompose 4 p ltac:(lia)) as [Hp Hmod].
  destruct (Nat.ltb_spec (p / 4) (ImageData.height img * ImageData.width img))
    as [Hlt|Hge].
  - destruct (lookup_lt_is_Some_2 (ImageData.data img) p) as [b Hb]; [lia|].
    rewrite Hb. cbn [fmap option_fmap option_map]. f_equal.
    destruct (p mod 4 =? 3) eqn:Halpha; [reflexivity|].
    apply Nat.eqb_neq in Halpha.
    assert (Hk : p mod 4 < 3) by lia.
    unfold getF.
    rewrite (rgbaToTensor_lookup_byte img (p / 4) (p mod 4) b Hlt Hk)
      by (rewrite <- Hp; exact Hb).
    apply (byte_facts b (Forall_lookup_1 _ _ _ _ Hbytes Hb)).
  - rewrite (proj2 (lookup_ge_None (ImageData.data img) p)) by lia. reflexivity.
Qed.

Lemma image_round_trip_witness :
  tensorToImageData (rgbaToTensor magenta_pixel)
  = Some (ImageData.mk 1 1 [255; 0; 255; 255]).
Proof.
  apply (image_round_trip magenta_pixel).
  split; [simpl; lia|]. split; [simpl; lia|]. split; [reflexivity|].
  repeat (constructor; [lia|]). constructor.
Defined.

(* ------------------------------------------------------------------ *)
(** ** Signs in floating point *)
(* ------------------------------------------------------------------ *)

Section Signs.
Variables prec emax : Z.

(** Rounding keeps the sign it is given. *)
Lemma binary_round_aux_sign mx ex lx :
  not_negative (binary_round_aux prec emax false mx ex lx).
Proof.
  unfold binary_round_aux.
  destruct (shr_fexp prec emax mx ex lx) as [mrs' e'].
  destruct (shr_fexp prec emax _ e' loc_Exact) as [mrs'' e''].
  destruct (shr_m mrs'') as [|m|m]; simpl; [reflexivity| |exact I].
  destruct (e'' <=? emax - prec)%Z; reflexivity.
Qed.

Lemma binary_round_sign m e : not_negative (binary_round prec emax false m e).
Proof.
  unfold binary_round.
  destruct (shl_align m e (fexp prec emax (Z.pos (digits2_pos m) + e))) as [mz ez].
  apply binary_round_aux_sign.
Qed.

Lemma SFadd_sign x y :
  not_negative x -> not_negative y -> not_negative (SFadd prec emax x y).
Proof.
  destruct x as [sx|sx| |sx mx ex], y as [sy|sy| |sy my ey]; simpl;
    intros Hx Hy; subst; try exact I; try reflexivity.
  unfold binary_normalize, cond_Zopp. simpl Z.add. apply binary_round_sign.
Qed.

Lemma SFdiv_sign x y :
  not_negative x -> not_negative y -> not_negative (SFdiv prec emax x y).
Proof.
  destruct x as [sx|sx| |sx mx ex], y as [sy|sy| |sy my ey]; simpl;
    intros Hx Hy; subst; try exact I; try reflexivity.
  destruct (SFdiv_core_binary prec emax (Z.pos mx) ex (Z.pos my) ey) as [[mz ez] lz].
  apply binary_round_aux_sign.
Qed.

Lemma SFmul_square_sign x : not_negative (SFmul prec emax x x).
Proof.
  destruct x as [s|s| |s m e]; simpl; try exact I; try (destruct s; reflexivity).
  replace (xorb s s) with false by (destruct s; reflexivity).
  apply binary_round_aux_sign.
Qed.

Lemma SFsqrt_sign x : not_negative x -> not_negative (SFsqrt prec emax x).
Proof.
  destruct x as [s|s| |s m e]; simpl; intros Hx; subst; try exact I; try reflexivity.
  destruct (SFsqrt_core_binary prec emax (Z.pos m) e) as [[mz ez] lz].
  apply binary_round_aux_sign.
Qed.

Lemma binary_normalize_sign (n : nat) e :
  not_negative (binary_normalize prec emax (Z.of_nat n) e false).
Proof.
  destruct n as [|n]; simpl; [reflexivity|]. apply binary_round_sign.
Qed.
End Signs.

Lemma fabs_sign x : not_negative (fabs x).
Proof. destruct x; simpl; auto. Qed.

Lemma of_nat_sign n : not_negative (of_nat n).
Proof. apply binary_normalize_sign. Qed.

(** A number that is not negative is not below 0. *)
Lemma not_negative_flt x : not_negative x -> flt x zero = false.
Proof. destruct x as [s|s| |s m e]; simpl; intros Hx; subst; reflexivity. Qed.

Lemma fsum_sign (l : list num) (s : num) :
  not_negative s -> Forall not_negative l -> not_negative (fold_left fadd l s).
Proof.
  revert s. induction l as [|x l IH]; intros s Hs Hl; [exact Hs|].
  simpl. inversion Hl; subst. apply IH; [|assumption].
  apply SFadd_sign; assumption.
Qed.

Lemma avgChange_sign st : not_negative (totalChange st) -> not_negative (avgChange st).
Proof.
  intros Ht. unfold avgChange. destruct (0 <? changeCount st); [|reflexivity].
  apply SFdiv_sign; [exact Ht|apply of_nat_sign].
Qed.

Lemma sweep_totalChange_sign damaged known U0 :
  not_negative (totalChange (sweep damaged known U0)).
Proof.
  apply (sweep_inv damaged known (fun st => not_negative (totalChange st)));
    [reflexivity|].
  intros y x st _ _ Hst. apply pixel_step_inv; [| |exact Hst].
  - intros c st' _ Hst'. exact Hst'.
  - intros c st' _ Hst' _. unfold unknown_channel. cbv zeta. cbn [totalChange].
    apply SFadd_sign; [exact Hst'|apply fabs_sign].
Qed.

(** X6.  No residual is negative: each one is +0, a positive number,
    +infinity or NaN, so none compares below 0. *)
Theorem residuals_not_negative damaged known lambda beta maxIter tol :
  Forall (fun res => not_negative res /\ flt res zero = false)
         (residuals (inpaintGaussSeidel damaged known lambda beta maxIter tol)).
Proof.
  destruct (inpaint_shape damaged known lambda beta maxIter tol)
    as (j & iter' & _ & Heq & _).
  rewrite Heq. cbv zeta. cbn [residuals].
  apply Forall_forall. intros res Hin. apply list_elem_of_In, in_map_iff in Hin.
  destruct Hin as (k & <- & _).
  assert (Hsign : not_negative (residual_after damaged known (data damaged) k)).
  { unfold residual_after. apply avgChange_sign, sweep_totalChange_sign. }
  split; [exact Hsign|apply not_negative_flt; exact Hsign].
Qed.

(** X7.  The value of [rmseOnMissing] is never negative, whatever the
    tensors and the mask: it is +0, positive, +infinity or NaN; so is the
    RMSE the engine reports. *)
Theorem rmse_not_negative :
  (forall original reconstructed known,
     not_negative (rmseOnMissing original reconstructed known) /\
     flt (rmseOnMissing original reconstructed known) zero = false)
  /\ (forall damaged known lambda beta maxIter tol,
        not_negative (rmse (inpaintGaussSeidel damaged known lambda beta maxIter tol))).
Proof.
  assert (Hrmse : forall original reconstructed known,
            not_negative (rmseOnMissing original reconstructed known)).
  { intros original reconstructed known.
    rewrite rmseOnMissing_spec. unfold rmse_spec. cbv zeta.
    destruct (unknown_terms original known) as [|t ts]; [reflexivity|].
    apply SFsqrt_sign, SFdiv_sign; [|apply of_nat_sign].
    unfold fsum. apply fsum_sign; [reflexivity|].
    apply Forall_forall. intros v Hin. apply list_elem_of_In, in_map_iff in Hin.
    destruct Hin as (ic & <- & _). unfold sq_diff. cbv zeta.
    apply SFmul_square_sign. }
  split.
  - intros original reconstructed known.
    split; [apply Hrmse|apply not_negative_flt, Hrmse].
  - intros damaged known lambda beta maxIter tol.
    rewrite (rmse_field damaged known lambda beta maxIter tol). apply Hrmse.
Qed.

(* ------------------------------------------------------------------ *)
(** ** The engine: bounds, shape and edge cases *)
(* ------------------------------------------------------------------ *)

(** X8.  The four neighbours of a pixel of the raster are pixels of the
    raster, each in the same row or column and at most one step away, so every
    sample the sweep reads lies inside the [H * W * C] samples of the
    buffer. *)
Theorem neighbors_in_raster Hd Wd Cn y x :
  y < Hd -> x < Wd ->
  forall ny nx, In (ny, nx) (neighbors Hd Wd y x) ->
    ny < Hd /\ nx < Wd /\
    ((nx = x /\ (ny = y \/ ny + 1 = y \/ ny = y + 1)) \/
     (ny = y /\ (nx = x \/ nx + 1 = x \/ nx = x + 1))) /\
    forall c, c < Cn -> (ny * Wd + nx) * Cn + c < Hd * Wd * Cn.
Proof.
  intros Hy Hx ny nx Hin.
  assert (Hb : ny < Hd /\ nx < Wd /\
               ((nx = x /\ (ny = y \/ ny + 1 = y \/ ny = y + 1)) \/
                (ny = y /\ (nx = x \/ nx + 1 = x \/ nx = x + 1)))).
  { unfold neighbors in Hin. simpl in Hin.
    destruct Hin as [Heq|[Heq|[Heq|[Heq|[]]]]]; inversion Heq; subst; lia. }
  destruct Hb as (Hny & Hnx & Hnear).
  split; [exact Hny|]. split; [exact Hnx|]. split; [exact Hnear|].
  intros c Hc.
  pose proof (Nat.mul_le_mono_r (ny + 1) Hd Wd ltac:(lia)) as Hrow.
  pose proof (Nat.mul_le_mono_r (ny * Wd + nx + 1) (Hd * Wd) Cn ltac:(lia)) as Hpix.
  lia.
Qed.

Lemma neighbors_in_raster_witness :
  In (0, 1) (neighbors 1 2 0 1) /\ (0 * 2 + 1) * 3 + 2 < 1 * 2 * 3.
Proof.
  split; [simpl; auto|].
  exact (proj2 (proj2 (proj2 (neighbors_in_raster 1 2 3 0 1 ltac:(lia) ltac:(lia)
                                0 1 ltac:(simpl; auto)))) 2 ltac:(lia)).
Defined.

(** A sweep writes only samples of the raster. *)
Lemma sweep_outside damaged known U0 p :
  H damaged * W damaged * C damaged <= p ->
  U (sweep damaged known U0) !! p = U0 !! p.
Proof.
  intros Hp.
  apply (sweep_inv damaged known (fun st => U st !! p = U0 !! p)); [reflexivity|].
  intros y x st Hy Hx Hst.
  pose proof (pixel_in_raster damaged y x Hy Hx) as Hidx.
  assert (Hslot : forall c, c < C damaged -> (y * W damaged + x) * C damaged + c <> p).
  { intros c Hc.
    pose proof (Nat.mul_le_mono_r (y * W damaged + x + 1) (H damaged * W damaged)
                  (C damaged) ltac:(lia)).
    lia. }
  apply pixel_step_inv; [| |exact Hst].
  - intros c st' Hc Hst'. simpl. rewrite setF_lookup_ne by (apply Hslot; exact Hc).
    exact Hst'.
  - intros c st' Hc Hst' _. simpl. rewrite setF_lookup_ne by (apply Hslot; exact Hc).
    exact Hst'.
Qed.

Lemma buffer_after_outside damaged known U0 k p :
  H damaged * W damaged * C damaged <= p ->
  buffer_after damaged known U0 k !! p = U0 !! p.
Proof.
  intros Hp. induction k as [|k IH]; [reflexivity|].
  unfold buffer_after in *. simpl. unfold sweep_step at 1.
  rewrite sweep_outside by exact Hp. exact IH.
Qed.

(** X9.  The tensor returned has the dimensions of the damaged one and a
    buffer of the same length, and every sample beyond the [H * W * C] samples
    of the raster is the one of the damaged buffer. *)
Theorem reconstructed_shape damaged known lambda beta maxIter tol :
  let r := inpaintGaussSeidel damaged known lambda beta maxIter tol in
  H (reconstructed r) = H damaged /\
  W (reconstructed r) = W damaged /\
  C (reconstructed r) = C damaged /\
  length (data (reconstructed r)) = length (data damaged) /\
  forall p, H damaged * W damaged * C damaged <= p ->
            data (reconstructed r) !! p = data damaged !! p.
Proof.
  destruct (inpaint_shape damaged known lambda beta maxIter tol)
    as (j & iter' & _ & Heq & _).
  cbv zeta. rewrite Heq. cbv zeta. cbn [reconstructed H W C data].
  split; [reflexivity|]. split; [reflexivity|]. split; [reflexivity|].
  split; [apply buffer_after_length|].
  intros p Hp. apply buffer_after_outside. exact Hp.
Qed.

(** X10.  With [maxIter <= 0] no sweep runs: the residual sequence is empty,
    the tensor returned is the damaged one, the RMSE is the one of the damaged
    tensor against itself, and the count reported is 1. *)
Theorem no_iteration_allowed damaged known lambda beta maxIter tol :
  (maxIter <= 0)%Z ->
  let r := inpaintGaussSeidel damaged known lambda beta maxIter tol in
  residuals r = [] /\
  reconstructed r = damaged /\
  rmse r = rmseOnMissing damaged damaged known /\
  iterations r = 1%Z.
Proof.
  intros Hmax. cbv zeta. unfold inpaintGaussSeidel.
  replace (Z.to_nat maxIter) with 0 by lia. simpl iterate. cbv zeta.
  cbn [residuals reconstructed rmse iterations].
  assert (Hrec : {| H := H damaged; W := W damaged; C := C damaged;
                    data := data damaged |} = damaged)
    by (apply tensor_eq; reflexivity).
  rewrite Hrec. repeat split; reflexivity.
Qed.

Lemma no_iteration_allowed_witness :
  let r := inpaintGaussSeidel half_damaged [1; 0] zero zero 0 tol_default in
  residuals r = [] /\ reconstructed r = half_damaged /\
  rmse r = rmseOnMissing half_damaged half_damaged [1; 0] /\ iterations r = 1%Z.
Proof. apply no_iteration_allowed. lia. Defined.

(** On a raster without sample the sweep changes nothing. *)
Lemma sweep_empty damaged known U0 :
  H damaged = 0 \/ W damaged = 0 \/ C damaged = 0 ->
  sweep damaged known U0 = {| U := U0; totalChange := zero; changeCount := 0 |}.
Proof.
  intros Hempty. unfold sweep. apply for_range_id. intros y Hy.
  apply for_range_id. intros x Hx.
  destruct Hempty as [Hz|[Hz|Hz]]; [lia|lia|].
  unfold pixel_step. rewrite Hz. destruct (is_at known _ 1); reflexivity.
Qed.

(** X11.  On a raster without sample (a dimension or the channel count is 0),
    with [tol > 0] and [maxIter >= 1], the engine makes one sweep that changes
    nothing: residual sequence [[0]], count 1, and the damaged tensor back. *)
Theorem empty_raster damaged known lambda beta maxIter tol :
  H damaged = 0 \/ W damaged = 0 \/ C damaged = 0 ->
  flt zero tol = true ->
  (1 <= maxIter)%Z ->
  let r := inpaintGaussSeidel damaged known lambda beta maxIter tol in
  residuals r = [zero] /\ iterations r = 1%Z /\ reconstructed r = damaged.
Proof.
  intros Hempty Htol Hmax. cbv zeta. unfold inpaintGaussSeidel.
  destruct (Z.to_nat maxIter) as [|n] eqn:Hn; [lia|].
  simpl iterate. rewrite (sweep_empty damaged known (data damaged) Hempty).
  unfold avgChange. simpl. rewrite Htol. simpl.
  split; [reflexivity|]. split; [reflexivity|].
  apply tensor_eq; reflexivity.
Qed.

Lemma empty_raster_witness :
  let r := inpaintGaussSeidel (mkTensor 0 5 3 []) [] zero zero 100 tol_default in
  residuals r = [zero] /\ iterations r = 1%Z /\ reconstructed r = mkTensor 0 5 3 [].
Proof.
  apply empty_raster; [left; reflexivity|reflexivity|lia].
Defined.

(** X12.  The count reported against the sweeps performed: it is the number
    of sweeps when the last residual is below [tol] (the loop broke), and the
    number of sweeps plus one when no residual is below [tol] (the loop ran
    [maxIter] sweeps, or none); it is never 0 and never more than one above
    [maxIter]. *)
Theorem iterations_against_sweeps damaged known lambda beta maxIter tol :
  let r := inpaintGaussSeidel damaged known lambda beta maxIter tol in
  ((exists res, last (residuals r) = Some res /\ flt res tol = true) ->
   iterations r = Z.of_nat (sweeps_done r)) /\
  (Forall (fun res => flt res tol = false) (residuals r) ->
   iterations r = (Z.of_nat (sweeps_done r) + 1)%Z /\
   Z.of_nat (sweeps_done r) = Z.max 0 maxIter) /\
  (1 <= iterations r <= Z.max 0 maxIter + 1)%Z.
Proof.
  pose proof (iterations_reported damaged known lambda beta maxIter tol) as Hrep.
  cbv zeta in Hrep |- *.
  set (r := inpaintGaussSeidel damaged known lambda beta maxIter tol) in *.
  assert (Hexcl : forall res, last (residuals r) = Some res -> flt res tol = true ->
                  Forall (fun res => flt res tol = false) (residuals r) -> False).
  { intros res Hlast Hres Hall.
    assert (Hin : res ∈ residuals r).
    { destruct (residuals r) as [|a l] using rev_ind; [discriminate|].
      rewrite last_snoc in Hlast. injection Hlast as ->.
      apply list_elem_of_In, in_or_app. right. left. reflexivity. }
    pose proof (proj1 (Forall_forall _ _) Hall res Hin) as Hfalse. cbv beta in Hfalse.
    congruence. }
  assert (Hbound : (Z.of_nat (sweeps_done r) <= Z.max 0 maxIter)%Z).
  { subst r. destruct (inpaint_shape damaged known lambda beta maxIter tol)
      as (j & iter' & Hj & Heq & _).
    rewrite Heq. unfold sweeps_done. cbv zeta. cbn [residuals].
    rewrite length_map, length_seq. lia. }
  destruct Hrep as [(res & Hlast & Hres & Hit)|(Hall & Hsw & Hit)].
  - split; [intros _; exact Hit|]. split.
    + intros Hall. exfalso. exact (Hexcl res Hlast Hres Hall).
    + assert (0 < sweeps_done r).
      { unfold sweeps_done. destruct (residuals r); [discriminate|simpl; lia]. }
      lia.
  - split.
    + intros (res & Hlast & Hres). exfalso. exact (Hexcl res Hlast Hres Hall).
    + split; [intros _; split; [exact Hit|lia]|lia].
Qed.

Lemma iterations_against_sweeps_witness :
  let r := inpaintGaussSeidel half_damaged [1; 0] zero zero 1 tol_default in
  iterations r = (Z.of_nat (sweeps_done r) + 1)%Z /\ Z.of_nat (sweeps_done r) = Z.max 0 1.
Proof.
  apply (proj1 (proj2 (iterations_against_sweeps half_damaged [1; 0] zero zero 1
                         tol_default))).
  replace (residuals (inpaintGaussSeidel half_damaged [1; 0] zero zero 1 tol_default))
    with [dyadic 5 (-4)] by (vm_compute; reflexivity).
  constructor; [vm_compute; reflexivity|constructor].
Defined.

(* ------------------------------------------------------------------ *)
(** ** From the uploaded image to the image displayed *)
(* ------------------------------------------------------------------ *)

(** The samples of a known pixel in the tensor returned, for an image's
    damaged view. *)
Lemma reconstructed_known_sample img known lambda beta maxIter tol i k b :
  well_formed_image img ->
  i < ImageData.height img * ImageData.width img ->
  known !! i = Some 1 -> k < 3 ->
  ImageData.data img !! (i * 4 + k) = Some b ->
  data (reconstructed
          (inpaintGaussSeidel (makeDamagedView (rgbaToTensor img) known) known
                              lambda beta maxIter tol)) !! (i * 3 + k)
  = Some (fround (fdiv (of_nat b) (of_Z 255))).
Proof.
  intros Hwf Hi Hknown Hk Hb.
  destruct (inpaint_shape (makeDamagedView (rgbaToTensor img) known) known
                          lambda beta maxIter tol) as (j & iter' & _ & Heq & _).
  rewrite Heq. cbv zeta. cbn [reconstructed data]. unfold U_after.
  pose proof (buffer_after_known_fixed (makeDamagedView (rgbaToTensor img) known) known
                (damaged_view_f32 _ known (rgbaToTensor_f32 img Hwf))
                (data (makeDamagedView (rgbaToTensor img) known)) j
                (fun _ _ _ _ => eq_refl) i k Hknown Hk) as Hfixed.
  change (C (makeDamagedView (rgbaToTensor img) known)) with 3 in Hfixed.
  rewrite Hfixed, damaged_view_lookup.
  rewrite (proj1 (div_stride 3 i k Hk)).
  unfold is_at. rewrite bool_decide_eq_false_2 by (rewrite Hknown; discriminate).
  rewrite andb_false_r. apply rgbaToTensor_lookup_byte; assumption.
Qed.

(** X13.  From upload to display: for a well-formed image and any known
    mask, the reconstruction of the damaged view can be shown, has the size of
    the image, and every pixel flagged 1 shows exactly the three colour bytes
    of the uploaded image, whatever the number of sweeps. *)
Theorem known_pixels_displayed img known lambda beta maxIter tol :
  well_formed_image img ->
  let damaged := makeDamagedView (rgbaToTensor img) known in
  let r := inpaintGaussSeidel damaged known lambda beta maxIter tol in
  exists out,
    tensorToImageData (reconstructed r) = Some out /\
    ImageData.width out = ImageData.width img /\
    ImageData.height out = ImageData.height img /\
    forall i, i < ImageData.height img * ImageData.width img ->
      known !! i = Some 1 ->
      forall k, k < 3 ->
        ImageData.data out !! (i * 4 + k) = ImageData.data img !! (i * 4 + k).
Proof.
  intros Hwf. cbv zeta. pose proof Hwf as (Hw & Hh & Hlen & Hbytes).
  set (r := inpaintGaussSeidel (makeDamagedView (rgbaToTensor img) known) known
                               lambda beta maxIter tol).
  assert (Hdims : H (reconstructed r) = ImageData.height img /\
                  W (reconstructed r) = ImageData.width img).
  { subst r.
    destruct (inpaint_shape (makeDamagedView (rgbaToTensor img) known) known
                            lambda beta maxIter tol) as (j & iter' & _ & Heq & _).
    rewrite Heq. split; reflexivity. }
  destruct Hdims as [HH HW].
  destruct (tensorToImageData (reconstructed r)) as [out|] eqn:Hout.
  2: { apply tensorToImageData_None in Hout. lia. }
  exists out. split; [reflexivity|].
  destruct (tensorToImageData_lookup (reconstructed r) out 0 Hout) as (Hwo & Hho & _).
  split; [congruence|]. split; [congruence|].
  intros i Hi Hknown k Hk.
  rewrite (proj2 (proj2 (tensorToImageData_lookup (reconstructed r) out (i * 4 + k) Hout))).
  destruct (div_stride 4 i k ltac:(lia)) as [-> ->].
  rewrite HH, HW, (proj2 (Nat.ltb_lt _ _) Hi).
  assert (Hk3 : (k =? 3) = false) by (apply Nat.eqb_neq; lia).
  rewrite Hk3.
  destruct (lookup_lt_is_Some_2 (ImageData.data img) (i * 4 + k)) as [b Hb]; [lia|].
  rewrite Hb. f_equal. unfold getF. subst r.
  rewrite (reconstructed_known_sample img known lambda beta maxIter tol i k b
             Hwf Hi Hknown Hk Hb).
  apply (byte_facts b (Forall_lookup_1 _ _ _ _ Hbytes Hb)).
Qed.

Lemma known_pixels_displayed_witness :
  exists out,
    tensorToImageData
      (reconstructed
         (inpaintGaussSeidel (makeDamagedView (rgbaToTensor magenta_pixel) [1]) [1]
                             zero zero 100 tol_default)) = Some out /\
    ImageData.data out !! (0 * 4 + 2) = Some 255.
Proof.
  destruct (known_pixels_displayed magenta_pixel [1] zero zero 100 tol_default)
    as (out & Hout & _ & _ & Hpix).
  { split; [simpl; lia|]. split; [simpl; lia|]. split; [reflexivity|].
    repeat (constructor; [lia|]). constructor. }
  exists out. split; [exact Hout|].
  exact (Hpix 0 ltac:(simpl; lia) eq_refl 2 ltac:(lia)).
Defined.

(* ------------------------------------------------------------------ *)
(** ** Painting the mask *)
(* ------------------------------------------------------------------ *)

Lemma mark_all_length targets mask : length (mark_all targets mask) = length mask.
Proof.
  unfold mark_all. revert mask.
  induction targets as [|j targets IH]; intros mask; [reflexivity|].
  simpl. rewrite IH. apply length_insert.
Qed.

Lemma mark_all_notin targets mask j :
  ~ In j targets -> mark_all targets mask !! j = mask !! j.
Proof.
  unfold mark_all. revert mask.
  induction targets as [|t targets IH]; intros mask Hnot; [reflexivity|].
  simpl. rewrite IH by (intros Hin; apply Hnot; right; exact Hin).
  apply list_lookup_insert_ne. intros ->. apply Hnot. left. reflexivity.
Qed.

Lemma mark_all_in targets mask j :
  In j targets -> j < length mask -> mark_all targets mask !! j = Some 1.
Proof.
  unfold mark_all. revert mask.
  induction targets as [|t targets IH]; intros mask Hin Hj; [destruct Hin|].
  simpl. destruct (in_dec Nat.eq_dec j targets) as [Hlater|Hnot].
  - apply IH; [exact Hlater|]. rewrite length_insert. exact Hj.
  - destruct Hin as [->|Hin]; [|contradiction].
    change (mark_all targets (<[j:=1]> mask) !! j = Some 1).
    rewrite mark_all_notin by exact Hnot.
    apply list_lookup_insert_eq. exact Hj.
Qed.

(** A marked mask holds 1 or what it held. *)
Lemma mark_all_cases targets mask j :
  mark_all targets mask !! j = Some 1 \/ mark_all targets mask !! j = mask !! j.
Proof.
  destruct (in_dec Nat.eq_dec j targets) as [Hin|Hnot].
  - destruct (decide (j < length mask)) as [Hlt|Hge].
    + left. apply mark_all_in; assumption.
    + right. rewrite (proj2 (lookup_ge_None mask j)) by lia.
      apply lookup_ge_None. rewrite mark_all_length. lia.
  - right. apply mark_all_notin. exact Hnot.
Qed.

Lemma fold_mark {A : Type} (c : A -> bool) (g : A -> nat) (l : list A) (m : Uint8Array) :
  fold_left (fun acc v => if c v then <[g v := 1]> acc else acc) l m
  = mark_all (map g (List.filter c l)) m.
Proof.
  unfold mark_all. revert m. induction l as [|v l IH]; intros m; [reflexivity|].
  simpl. destruct (c v); simpl; apply IH.
Qed.

Lemma mark_all_app l1 l2 m : mark_all (l1 ++ l2) m = mark_all l2 (mark_all l1 m).
Proof. unfold mark_all. apply fold_left_app. Qed.

Lemma fold_left_pointwise {A B : Type} (f g : A -> B -> A) (l : list B) (a : A) :
  (forall x y, f x y = g x y) -> fold_left f l a = fold_left g l a.
Proof.
  intros Hfg. revert a. induction l as [|y l IH]; intros a; [reflexivity|].
  simpl. rewrite Hfg. apply IH.
Qed.

(** [drawMask] marks the targets of the stroke. *)
Lemma drawMask_mark_all width height brushSize px py mask :
  MaskCanvas.drawMask width height brushSize px py mask
  = mark_all (stroke_targets width height (brushSize / 2) px py) mask.
Proof.
  unfold MaskCanvas.drawMask, stroke_targets, for_z. cbv zeta.
  set (cols := seqZ (- (brushSize / 2)) (brushSize / 2 - - (brushSize / 2) + 1)).
  generalize cols at 2 4. intros rows. revert mask.
  induction rows as [|dy rows IH]; intros mask; [reflexivity|].
  cbn [fold_left flat_map]. rewrite mark_all_app, IH. f_equal.
  rewrite <- fold_mark. apply fold_left_pointwise. intros m dx.
  destruct (dx * dx + dy * dy <=? brushSize / 2 * (brushSize / 2))%Z; [|reflexivity].
  reflexivity.
Qed.

Lemma in_stroke_targets width height radius px py j :
  In j (stroke_targets width height radius px py) <->
  exists dy dx : Z,
    (- radius <= dy <= radius)%Z /\ (- radius <= dx <= radius)%Z /\
    (dx * dx + dy * dy <= radius * radius)%Z /\
    (0 <= px + dx < Z.of_nat width)%Z /\ (0 <= py + dy < Z.of_nat height)%Z /\
    j = Z.to_nat ((py + dy) * Z.of_nat width + (px + dx)).
Proof.
  unfold stroke_targets. rewrite in_flat_map. split.
  - intros (dy & Hdy & Hin). apply in_map_iff in Hin. destruct Hin as (dx & Hj & Hdx).
    apply filter_In in Hdx. destruct Hdx as [Hdx Hcond].
    apply list_elem_of_In, elem_of_seqZ in Hdy.
    apply list_elem_of_In, elem_of_seqZ in Hdx.
    apply andb_prop in Hcond. destruct Hcond as [Hdisc Hin].
    apply andb_prop in Hin. destruct Hin as [Hin Hy2].
    apply andb_prop in Hin. destruct Hin as [Hin Hy1].
    apply andb_prop in Hin. destruct Hin as [Hx1 Hx2].
    apply Z.leb_le in Hdisc, Hx1, Hy1. apply Z.ltb_lt in Hx2, Hy2.
    exists dy, dx. repeat split; first [lia|symmetry; exact Hj].
  - intros (dy & dx & Hdy & Hdx & Hdisc & Hx & Hy & ->).
    exists dy. split; [apply list_elem_of_In, elem_of_seqZ; lia|].
    apply in_map_iff. exists dx. split; [reflexivity|].
    apply filter_In. split; [apply list_elem_of_In, elem_of_seqZ; lia|].
    apply andb_true_intro. split; [apply Z.leb_le; exact Hdisc|].
    repeat (apply andb_true_intro; split);
      first [apply Z.leb_le; lia|apply Z.ltb_lt; lia].
Qed.

Lemma index_of_Z (Wd : nat) (ny nx : Z) :
  (0 <= ny)%Z -> (0 <= nx)%Z ->
  Z.to_nat (ny * Z.of_nat Wd + nx) = Z.to_nat ny * Wd + Z.to_nat nx.
Proof.
  intros Hny Hnx.
  rewrite Z2Nat.inj_add, Z2Nat.inj_mul, Nat2Z.id;
    first [lia|apply Z.mul_nonneg_nonneg; lia].
Qed.

Lemma square_le_bound (a r : Z) :
  (0 <= r)%Z -> (a * a <= r * r)%Z -> (- r <= a <= r)%Z.
Proof.
  intros Hr Hsq. split.
  - destruct (Z_le_gt_dec (- r) a) as [Hle|Hgt]; [exact Hle|].
    assert (r * r < a * a)%Z by nia. lia.
  - destruct (Z_le_gt_dec a r) as [Hle|Hgt]; [exact Hle|].
    assert (r * r < a * a)%Z by nia. lia.
Qed.

Lemma raster_index_bound (width height x y : nat) :
  x < width -> y < height -> y * width + x < width * height.
Proof.
  intros Hx Hy. pose proof (Nat.mul_le_mono_r (y + 1) height width ltac:(lia)). lia.
Qed.

(** The mask after a stroke, at a pixel of the raster. *)
Lemma drawMask_lookup width height brushSize px py mask x y :
  (0 <= brushSize)%Z -> length mask = width * height ->
  x < width -> y < height ->
  MaskCanvas.drawMask width height brushSize px py mask !! (y * width + x)
  = if ((Z.of_nat x - px) * (Z.of_nat x - px) + (Z.of_nat y - py) * (Z.of_nat y - py)
        <=? brushSize / 2 * (brushSize / 2))%Z
    then Some 1
    else mask !! (y * width + x).
Proof.
  intros Hbrush Hlen Hx Hy. rewrite drawMask_mark_all.
  pose proof (Z.div_pos brushSize 2 Hbrush ltac:(lia)) as Hradius.
  set (radius := (brushSize / 2)%Z) in *.
  destruct (Z.leb_spec ((Z.of_nat x - px) * (Z.of_nat x - px)
                        + (Z.of_nat y - py) * (Z.of_nat y - py))
                       (radius * radius)) as [Hin|Hout].
  - apply mark_all_in.
    + apply in_stroke_targets. exists (Z.of_nat y - py)%Z, (Z.of_nat x - px)%Z.
      pose proof (Z.square_nonneg (Z.of_nat x - px)) as Hsx.
      pose proof (Z.square_nonneg (Z.of_nat y - py)) as Hsy.
      split; [apply square_le_bound; lia|].
      split; [apply square_le_bound; lia|]. split; [exact Hin|].
      split; [lia|]. split; [lia|].
      replace (py + (Z.of_nat y - py))%Z with (Z.of_nat y) by lia.
      replace (px + (Z.of_nat x - px))%Z with (Z.of_nat x) by lia.
      rewrite index_of_Z, !Nat2Z.id by lia. reflexivity.
    + rewrite Hlen. apply raster_index_bound; assumption.
  - apply mark_all_notin. intros Hj. apply in_stroke_targets in Hj.
    destruct Hj as (dy & dx & _ & _ & Hdisc & Hbx & Hby & Heq).
    rewrite index_of_Z in Heq by lia.
    apply slot_inj in Heq; [|lia|lia].
    destruct Heq as [Hyy Hxx].
    assert (dy = Z.of_nat y - py)%Z by lia.
    assert (dx = Z.of_nat x - px)%Z by lia.
    subst dy dx. lia.
Qed.

Lemma drawMask_cases width height brushSize px py mask j :
  MaskCanvas.drawMask width height brushSize px py mask !! j = Some 1 \/
  MaskCanvas.drawMask width height brushSize px py mask !! j = mask !! j.
Proof. rewrite drawMask_mark_all. apply mark_all_cases. Qed.


(** X14.  A stroke with a brush of size at least 0 keeps the length of the
    mask, never erases a mark, and marks exactly the pixels of the raster
    whose squared distance to the pointer is at most [radius^2], where
    [radius = floor (brushSize / 2)]: a disc clipped to the raster, with no
    wrap-around into neighbouring rows. *)
Theorem drawMask_disc width height brushSize px py mask :
  (0 <= brushSize)%Z ->
  length mask = width * height ->
  length (MaskCanvas.drawMask width height brushSize px py mask) = length mask /\
  (forall j, MaskCanvas.drawMask width height brushSize px py mask !! j = Some 1 \/
             MaskCanvas.drawMask width height brushSize px py mask !! j = mask !! j) /\
  forall x y, x < width -> y < height ->
    MaskCanvas.drawMask width height brushSize px py mask !! (y * width + x)
    = if ((Z.of_nat x - px) * (Z.of_nat x - px) + (Z.of_nat y - py) * (Z.of_nat y - py)
          <=? brushSize / 2 * (brushSize / 2))%Z
      then Some 1
      else mask !! (y * width + x).
Proof.
  intros Hbrush Hlen.
  split; [rewrite drawMask_mark_all; apply mark_all_length|].
  split; [apply drawMask_cases|].
  intros x y Hx Hy. apply drawMask_lookup; assumption.
Qed.

Lemma drawMask_disc_witness :
  MaskCanvas.drawMask 3 1 2 0 0 [0; 0; 0] !! (0 * 3 + 1) = Some 1 /\
  MaskCanvas.drawMask 3 1 2 0 0 [0; 0; 0] !! (0 * 3 + 2) = Some 0.
Proof.
  split.
  - exact (proj2 (proj2 (drawMask_disc 3 1 2 0 0 [0; 0; 0] ltac:(lia) eq_refl))
             1 0 ltac:(lia) ltac:(lia)).
  - exact (proj2 (proj2 (drawMask_disc 3 1 2 0 0 [0; 0; 0] ltac:(lia) eq_refl))
             2 0 ltac:(lia) ltac:(lia)).
Defined.

(* ------------------------------------------------------------------ *)
(** ** The handlers together *)
(* ------------------------------------------------------------------ *)

Lemma paintedCount_marked mask j : mask !! j = Some 1 -> App.paintedCount mask <> 0.
Proof.
  intros Hj Hzero. apply paintedCount_zero in Hzero.
  pose proof (Forall_lookup_1 _ _ _ _ Hzero Hj) as Hone. discriminate Hone.
Qed.



Lemma paintedCount_replicate n : App.paintedCount (replicate n 0) = 0.
Proof. apply paintedCount_zero. apply Forall_replicate. reflexivity. Qed.

(** X16.  With an empty mask nothing is reconstructed by mistake: right after
    an image is loaded, and after "clear mask", "apply damage" in manual mode
    only raises the alert and leaves the state as it is; the freshly loaded
    state has no damaged tensor, so "reconstruct" does nothing on it. *)
Theorem empty_mask_alerts rand st :
  App.useManualMask st = true ->
  (forall img,
     App.handleApplyDamage rand (Handlers.imageLoaded img st)
     = (Handlers.imageLoaded img st, Some App.NoPaintedPixels) /\
     App.handleReconstruct (Handlers.imageLoaded img st) = Handlers.imageLoaded img st)
  /\ (forall t maskRef,
        App.originalTensor st = Some t ->
        App.handleApplyDamage rand
          (Handlers.handleMaskChange (MaskCanvas.handleClearMask maskRef) st)
        = (Handlers.handleMaskChange (MaskCanvas.handleClearMask maskRef) st,
           Some App.NoPaintedPixels)).
Proof.
  intros Hmanual. split.
  - intros img. split; [|reflexivity].
    unfold App.handleApplyDamage. cbn [Handlers.imageLoaded App.originalTensor
      App.useManualMask App.manualMask].
    rewrite Hmanual, paintedCount_replicate. reflexivity.
  - intros t maskRef Horig.
    unfold App.handleApplyDamage, MaskCanvas.handleClearMask.
    cbn [Handlers.handleMaskChange App.originalTensor App.useManualMask App.manualMask].
    rewrite Horig, Hmanual, paintedCount_replicate. reflexivity.
Qed.

Lemma empty_mask_alerts_witness :
  App.handleApplyDamage (fun _ => zero)
    (Handlers.imageLoaded magenta_pixel
       (App.mkState None None None None None [] zero 0%Z
                    true zero zero zero 1000%Z tol_default))
  = (Handlers.imageLoaded magenta_pixel
       (App.mkState None None None None None [] zero 0%Z
                    true zero zero zero 1000%Z tol_default),
     Some App.NoPaintedPixels).
Proof.
  exact (proj1 (proj1 (empty_mask_alerts (fun _ => zero)
           (App.mkState None None None None None [] zero 0%Z
                        true zero zero zero 1000%Z tol_default) eq_refl)
           magenta_pixel)).
Defined.

Lemma handleReconstruct_fields st :
  App.originalTensor (App.handleReconstruct st) = App.originalTensor st /\
  App.knownMask (App.handleReconstruct st) = App.knownMask st /\
  App.damagedTensor (App.handleReconstruct st) = App.damagedTensor st.
Proof.
  unfold App.handleReconstruct.
  destruct (App.damagedTensor st) as [damaged|] eqn:Hd;
    [|repeat split; first [reflexivity|assumption|symmetry; assumption]].
  destruct (App.knownMask st) as [known|] eqn:Hk;
    [|repeat split; first [reflexivity|assumption|symmetry; assumption]].
  destruct (inpaintGaussSeidel damaged known (App.lambda st) (App.beta st)
                               (App.maxIter st) (App.tol st)).
  cbn. repeat split; first [reflexivity|assumption|symmetry; assumption].
Qed.

(** X17.  The handlers keep the state consistent: the known mask and the
    damaged tensor are set or unset together, and when set the damaged tensor
    is the damaged view of the image loaded under that mask.  In such a state
    "reconstruct" stores the engine's result for exactly that view. *)
Theorem handlers_keep_consistency rand st :
  consistent st ->
  consistent (fst (App.handleApplyDamage rand st)) /\
  consistent (App.handleReconstruct st) /\
  (forall mask, consistent (Handlers.handleMaskChange mask st)) /\
  (forall img, consistent (Handlers.imageLoaded img st)) /\
  (forall t known,
     App.originalTensor st = Some t -> App.knownMask st = Some known ->
     let r := inpaintGaussSeidel (makeDamagedView t known) known
                (App.lambda st) (App.beta st) (App.maxIter st) (App.tol st) in
     App.reconstructedTensor (App.handleReconstruct st) = Some (reconstructed r) /\
     App.residuals (App.handleReconstruct st) = residuals r /\
     App.rmse (App.handleReconstruct st) = rmse r /\
     App.iterations (App.handleReconstruct st) = iterations r).
Proof.
  intros Hcons. split; [|split; [|split; [|split]]].
  - unfold App.handleApplyDamage.
    destruct (App.originalTensor st) as [t|] eqn:Horig; [|exact Hcons].
    destruct (App.useManualMask st), (App.manualMask st) as [mask|];
      try (unfold consistent; cbn; exists t; split; [exact Horig|reflexivity]).
    destruct (App.paintedCount mask =? 0); [exact Hcons|].
    unfold consistent. cbn. exists t. split; [exact Horig|reflexivity].
  - unfold consistent.
    destruct (handleReconstruct_fields st) as (-> & -> & ->). exact Hcons.
  - intros mask. exact Hcons.
  - intros img. exact I.
  - intros t known Horig Hknown. cbv zeta.
    unfold consistent in Hcons. rewrite Hknown in Hcons.
    destruct (App.damagedTensor st) as [damaged|] eqn:Hd; [|contradiction].
    destruct Hcons as (t' & Ht' & ->). rewrite Horig in Ht'. injection Ht' as <-.
    unfold App.handleReconstruct. rewrite Hd, Hknown.
    destruct (inpaintGaussSeidel (makeDamagedView t known) known (App.lambda st)
                (App.beta st) (App.maxIter st) (App.tol st)).
    cbn. auto.
Qed.

Lemma handlers_keep_consistency_witness :
  consistent
    (fst (App.handleApplyDamage (fun _ => zero)
            (App.mkState (Some white_1x2) (Some [0; 1]) None None None [] zero 0%Z
                         true zero zero zero 1000%Z tol_default))).
Proof.
  exact (proj1 (handlers_keep_consistency (fun _ => zero)
           (App.mkState (Some white_1x2) (Some [0; 1]) None None None [] zero 0%Z
                        true zero zero zero 1000%Z tol_default) I)).
Defined.

Lemma painted_sum_count (paint : Uint8Array) (a : nat) :
  binary_mask paint ->
  fold_left (fun sum val => sum + val) paint a
  = a + length (List.filter (fun v => v =? 0) (App.invert paint)).
Proof.
  intros Hbin. revert a. induction paint as [|v paint IH]; intros a; simpl; [lia|].
  inversion Hbin as [|? ? Hv Hrest]; subst.
  rewrite (IH Hrest). destruct Hv as [-> | ->]; simpl; lia.
Qed.

(** X18.  After "apply damage" with a painted 0/1 mask, the number of unknown
    pixels the page shows is the number of painted pixels, and it is not 0. *)
Theorem unknown_count_is_painted_count rand st t paint :
  App.originalTensor st = Some t ->
  App.useManualMask st = true ->
  App.manualMask st = Some paint ->
  binary_mask paint ->
  Exists (fun v => v = 1) paint ->
  let st' := fst (App.handleApplyDamage rand st) in
  Handlers.unknownPixels st' = Handlers.paintedPixels st' /\
  Handlers.paintedPixels st' = Handlers.paintedPixels st /\
  0 < Handlers.unknownPixels st'.
Proof.
  intros Horig Hmanual Hmask Hbin Hpainted. cbv zeta.
  assert (Hcount : App.paintedCount paint <> 0).
  { apply Exists_exists in Hpainted. destruct Hpainted as (v & Hin & ->).
    apply list_elem_of_lookup in Hin. destruct Hin as [j Hj].
    exact (paintedCount_marked paint j Hj). }
  unfold App.handleApplyDamage. rewrite Horig, Hmanual, Hmask.
  rewrite (proj2 (Nat.eqb_neq _ _) Hcount). cbn [fst].
  unfold Handlers.unknownPixels, Handlers.paintedPixels.
  cbn [App.apply_known App.knownMask App.manualMask]. rewrite Hmask.
  pose proof (painted_sum_count paint 0 Hbin) as Hsum.
  unfold App.paintedCount in *. simpl in Hsum. lia.
Qed.

Lemma unknown_count_is_painted_count_witness :
  Handlers.unknownPixels
    (fst (App.handleApplyDamage (fun _ => zero)
            (App.mkState (Some white_1x2) (Some [0; 1]) None None None [] zero 0%Z
                         true zero zero zero 1000%Z tol_default)))
  = 1.
Proof.
  exact (proj1 (unknown_count_is_painted_count (fun _ => zero)
           (App.mkState (Some white_1x2) (Some [0; 1]) None None None [] zero 0%Z
                        true zero zero zero 1000%Z tol_default)
           white_1x2 [0; 1] eq_refl eq_refl eq_refl
           ltac:(repeat (constructor; [lia|]); constructor)
           ltac:(right; left; reflexivity))).
Defined.

(* ------------------------------------------------------------------ *)
(** ** randomKnownMask *)
(* ------------------------------------------------------------------ *)






(* ------------------------------------------------------------------ *)
(** ** The damaged view on screen, and a tolerance that cannot be met *)
(* ------------------------------------------------------------------ *)

(** X20.  The damaged view of a well-formed image can be shown and has the
    image's size; a pixel flagged 0 is shown black, any other pixel shows the
    three colour bytes of the image, and every pixel is opaque. *)
Theorem damaged_view_displayed img known :
  well_formed_image img ->
  exists out,
    tensorToImageData (makeDamagedView (rgbaToTensor img) known) = Some out /\
    ImageData.width out = ImageData.width img /\
    ImageData.height out = ImageData.height img /\
    forall i, i < ImageData.height img * ImageData.width img ->
      ImageData.data out !! (i * 4 + 3) = Some 255 /\
      forall k, k < 3 ->
        ImageData.data out !! (i * 4 + k)
        = if is_at known i 0 then Some 0 else ImageData.data img !! (i * 4 + k).
Proof.
  intros Hwf. pose proof Hwf as (Hw & Hh & Hlen & Hbytes).
  set (view := makeDamagedView (rgbaToTensor img) known).
  destruct (tensorToImageData view) as [out|] eqn:Hout.
  2: { apply tensorToImageData_None in Hout. simpl in Hout. lia. }
  exists out. split; [reflexivity|].
  destruct (tensorToImageData_lookup view out 0 Hout) as (Hwo & Hho & _).
  split; [exact Hwo|]. split; [exact Hho|].
  intros i Hi.
  assert (Hat : forall k, k < 4 ->
            ImageData.data out !! (i * 4 + k)
            = Some (if k =? 3 then 255
                    else JSMath.to_uint8_clamp (to_level (getF (data view) (i * 3 + k))))).
  { intros k Hk.
    rewrite (proj2 (proj2 (tensorToImageData_lookup view out (i * 4 + k) Hout))).
    destruct (div_stride 4 i k Hk) as [-> ->].
    change (H view * W view) with (ImageData.height img * ImageData.width img).
    rewrite (proj2 (Nat.ltb_lt _ _) Hi). reflexivity. }
  split; [exact (Hat 3 ltac:(lia))|].
  intros k Hk. rewrite (Hat k ltac:(lia)).
  assert (Hk3 : (k =? 3) = false) by (apply Nat.eqb_neq; lia).
  rewrite Hk3.
  destruct (lookup_lt_is_Some_2 (ImageData.data img) (i * 4 + k)) as [b Hb]; [lia|].
  pose proof (rgbaToTensor_lookup_byte img i k b Hi Hk Hb) as Hsample.
  unfold getF. subst view. rewrite damaged_view_lookup.
  rewrite (proj1 (div_stride 3 i k Hk)).
  change (H (rgbaToTensor img) * W (rgbaToTensor img))
    with (ImageData.height img * ImageData.width img).
  rewrite (proj2 (Nat.ltb_lt _ _) Hi), Hsample. cbn [andb].
  destruct (is_at known i 0).
  - reflexivity.
  - rewrite Hb. f_equal. apply (byte_facts b (Forall_lookup_1 _ _ _ _ Hbytes Hb)).
Qed.

Lemma damaged_view_displayed_witness :
  exists out,
    tensorToImageData (makeDamagedView (rgbaToTensor magenta_pixel) [0]) = Some out /\
    ImageData.data out !! (0 * 4 + 0) = Some 0.
Proof.
  destruct (damaged_view_displayed magenta_pixel [0]) as (out & Hout & _ & _ & Hpix).
  { split; [simpl; lia|]. split; [simpl; lia|]. split; [reflexivity|].
    repeat (constructor; [lia|]). constructor. }
  exists out. split; [exact Hout|].
  exact (proj2 (Hpix 0 ltac:(simpl; lia)) 0 ltac:(lia)).
Defined.

(** A residual is never below a tolerance that is not positive. *)
Lemma flt_not_positive (res tol : num) :
  not_negative res -> not_positive tol -> flt res tol = false.
Proof.
  destruct res as [s|s| |s m e], tol as [s'|s'| |s' m' e']; simpl;
    intros Hres Htol; subst; reflexivity.
Qed.

(** X21.  With a tolerance that is 0, negative or NaN the stopping test never
    succeeds: the engine performs all [maxIter] sweeps (none when
    [maxIter <= 0]) and reports [maxIter + 1] iterations. *)
Theorem unmeetable_tolerance damaged known lambda beta maxIter tol :
  not_positive tol ->
  let r := inpaintGaussSeidel damaged known lambda beta maxIter tol in
  Z.of_nat (sweeps_done r) = Z.max 0 maxIter /\
  iterations r = (Z.max 0 maxIter + 1)%Z.
Proof.
  intros Htol. cbv zeta.
  destruct (inpaint_shape damaged known lambda beta maxIter tol)
    as (j & iter' & Hj & Heq & _ & Hend).
  rewrite Heq. unfold sweeps_done. cbv zeta. cbn [residuals iterations].
  rewrite length_map, length_seq.
  destruct Hend as [(k & _ & Hk & _)|(-> & _ & ->)]; [|lia].
  rewrite flt_not_positive in Hk; [discriminate Hk| |exact Htol].
  unfold residual_after. apply avgChange_sign, sweep_totalChange_sign.
Qed.

Lemma unmeetable_tolerance_witness :
  let r := inpaintGaussSeidel half_damaged [1; 0] zero zero 3 zero in
  Z.of_nat (sweeps_done r) = Z.max 0 3 /\ iterations r = (Z.max 0 3 + 1)%Z.
Proof. apply unmeetable_tolerance. exact I. Defined.
